(** * oidc-agent: secret protection glue ([src/utils/crypt/cryptUtils.c])

    A shallow embedding of the functions of [cryptUtils.c] and the
    properties of the envelope codec, the password retry loop, the lock
    layer, the IPC envelope and the loaded-account store.

    The file only contains glue code: the AEAD primitive ([crypt.h],
    [hexCrypt.h]), the memory cipher ([memoryCrypt.h]), the prompt, the
    version utilities, the list container and the account accessors are
    collaborators declared in other headers.  The ones whose behaviour is
    not fixed by this file are the members of the class [Collaborators];
    the part of their contract a property relies on is stated as a
    hypothesis next to the property.  The log of outgoing calls in the
    state is there to say which collaborator was called, how often and
    with what. *)

From Stdlib Require Import ZArith Ascii String DecimalString DecimalPos DecimalN.
From stdpp Require Import base tactics option strings countable functions.
From stdpp Require Import list.

Local Open Scope Z_scope.
Local Open Scope string_scope.
Local Open Scope list_scope.

(** ** C strings and libc *)

(** A [char*] is either [NULL] or points to a NUL-terminated string. *)
Abbreviation cstr := (option string) (only parsing).

(** The line feed, ['\n'], and the colon used by the envelope formats. *)
Definition LF : ascii := Ascii.ascii_of_nat 10.
Definition COLON : ascii := ":"%char.

(** [printf]'s [%s]: glibc prints a NULL argument as [(null)]. *)
Definition fmt_s (s : cstr) : string := default "(null)" s.

(** [printf]'s [%lu], for a value already reduced to an [unsigned long]. *)
Definition fmt_lu (n : Z) : string :=
  NilZero.string_of_uint (N.to_uint (Z.to_N n)).

(** [size_t] and [unsigned long] arithmetic (LP64): modulo [2^64]. *)
Definition ULONG_MODULUS : Z := 2 ^ 64.
Definition to_ulong (z : Z) : Z := z mod ULONG_MODULUS.
Definition size_add (a b : Z) : Z := to_ulong (a + b).

(** [strlen], as a [size_t]. *)
Definition strlen (s : string) : Z := Z.of_nat (String.length s).

Module Strtok.

(** [strspn]: the suffix after the leading delimiters. *)
Fixpoint skip_delim (d : ascii) (s : string) : string :=
  match s with
  | EmptyString => EmptyString
  | String c s' => if Ascii.eqb c d then skip_delim d s' else s
  end.

(** The token at the head of [s] and what follows its delimiter; the rest
    is empty when the token ends the string. *)
Fixpoint take_token (d : ascii) (s : string) : string * string :=
  match s with
  | EmptyString => (EmptyString, EmptyString)
  | String c s' =>
      if Ascii.eqb c d then (EmptyString, s')
      else let '(t, r) := take_token d s' in (String c t, r)
  end.

(** [strtok(str, delim)] with a one-character delimiter set, which is what
    every call site passes.  The static save pointer of libc is the
    explicit [save] argument: [None] stands for a pointer that was never
    set or whose buffer is gone, in which case [strtok(NULL, _)] has no
    token to give. *)
Definition strtok (str : cstr) (d : ascii) (save : cstr) : cstr * cstr :=
  match (match str with Some s => Some s | None => save end) with
  | None => (None, None)
  | Some s =>
      match skip_delim d s with
      | EmptyString => (None, Some EmptyString)
      | s1 => let '(t, r) := take_token d s1 in (Some t, Some r)
      end
  end.

(** All fields of [s], empty ones included. *)
Fixpoint split (d : ascii) (s : string) : list string :=
  match s with
  | EmptyString => [EmptyString]
  | String c s' =>
      if Ascii.eqb c d then EmptyString :: split d s'
      else match split d s' with
           | t :: ts => String c t :: ts
           | [] => [String c EmptyString]
           end
  end.

Definition nonempty (s : string) : bool :=
  match s with EmptyString => false | _ => true end.

(** The tokens [strtok] hands out for [s], in order: the non-empty
    delimiter-free runs. *)
Definition tokens (d : ascii) (s : string) : list string :=
  filter (fun t => nonempty t = true) (split d s).

(** [s] holds no delimiter. *)
Fixpoint free_of (d : ascii) (s : string) : bool :=
  match s with
  | EmptyString => true
  | String c s' => negb (Ascii.eqb c d) && free_of d s'
  end.

End Strtok.
Import Strtok.

(** ** The list container ([list/list.h]) *)

(** Modelled from the spec: [list_at(self, index)] of the ordered list
    container ([list/list.h], not among the sources).  The version line,
    when present, is the last line of a serialization of several lines, and
    [decryptLinesList] reads it at index [-1] and the cipher at index [0]:
    a negative index counts from the tail, [-1] being the last node; out of
    range is [NULL]. *)
Definition list_at {A : Type} (self : list A) (index : Z) : option A :=
  if (index <? 0)%Z then rev self !! Z.to_nat (Z.lnot index)
  else self !! Z.to_nat index.

(** ** Error codes ([utils/oidc_error.h]) *)

(** Modelled from the spec: the codes of [oidc_error_t] this file sets or
    returns, after the taxonomy of errors: a malformed persisted envelope
    ([OIDC_ECRYPM]), a malformed IPC envelope ([OIDC_ECRYPMIPC]), a missing
    required argument ([OIDC_EARGNULLFUNC]), and the codes the collaborators
    report ([OIDC_ELIB]). *)
Inductive oidc_error : Type :=
| OIDC_SUCCESS
| OIDC_EARGNULLFUNC
| OIDC_ECRYPM
| OIDC_ECRYPMIPC
| OIDC_ELIB (code : nat).

#[global] Instance oidc_error_eq_dec : EqDecision oidc_error.
Proof. solve_decision. Defined.

(** What a collaborator that returns a pointer and reports through
    [oidc_errno] gives back: the string, or [NULL] with the code it set. *)
Inductive outcome : Type :=
| Ok (s : string)
| Err (e : oidc_error).

(** ** Collaborators

    Everything [cryptUtils.c] calls but does not define.  Functions that
    draw random bytes or talk to the terminal thread [world], the state of
    the outside; the others are functions of their arguments. *)

(** A symmetric key, [const unsigned char*]. *)
Abbreviation key := (list Byte.byte) (only parsing).

Class Collaborators := {
  world : Type;
  (** [settings.h], [version.h] *)
  MAX_PASS_TRIES : nat;
  MIN_BASE64_VERSION : string;
  VERSION : string;
  (** [utils/versionUtils.h] *)
  versionLineToSimpleVersion : cstr -> cstr;
  simpleVersionToVersionLine : cstr -> cstr;
  versionAtLeast : cstr -> cstr -> bool;
  (** string to number conversions *)
  strToInt : cstr -> Z;
  strToULong : cstr -> Z;
  (** [utils/listUtils.h], [utils/file_io] *)
  delimitedStringToList : cstr -> ascii -> list string;
  getLinesFromFile : cstr -> world -> list string;
  (** [utils/prompt.h] *)
  promptPassword : string -> world -> cstr * world;
  (** [crypt.h], [hexCrypt.h]: password based *)
  crypt_encrypt : cstr -> cstr -> world -> outcome * world;
  crypt_decrypt : cstr -> cstr -> outcome;
  crypt_decryptFromList : list string -> cstr -> outcome;
  crypt_decrypt_hex : cstr -> Z -> cstr -> cstr -> cstr -> outcome;
  (** [crypt.h]: key based; [struct cryptParameter] is only read through
      its [mac_len] member. *)
  cryptParameter : Type;
  mac_len : cryptParameter -> Z;
  newCryptParameters : cryptParameter;
  crypt_encryptWithKey :
    string -> key -> world -> (cstr * cstr * cryptParameter) * world;
  crypt_decryptWithKey :
    cstr * cstr * cryptParameter -> Z -> key -> outcome;
  (** [memoryCrypt.h] *)
  memoryEncrypt : cstr -> cstr;
  memoryDecrypt : cstr -> cstr;
}.

(** [struct encryptionInfo], as far as this file uses it: the base64 text
    of the ciphertext, of the nonce, and the parameters. *)
Definition encryptionInfo `{Collaborators} : Type :=
  (cstr * cstr * cryptParameter)%type.
Definition encrypted_base64 `{Collaborators} (c : encryptionInfo) : cstr :=
  c.1.1.
Definition nonce_base64 `{Collaborators} (c : encryptionInfo) : cstr :=
  c.1.2.
Definition crypt_parameter `{Collaborators} (c : encryptionInfo)
  : cryptParameter := c.2.

(** ** Accounts ([account/account.h]) *)

(** A [struct oidc_account*]. *)
Abbreviation loc := nat (only parsing).

(** Modelled from the spec: [struct oidc_account] ([account/account.h], not
    among the sources), the credential record: a logical identity, used for
    equality and lookup, plus four secret string fields, access token,
    refresh token, client id and client secret.  [acc_identity] is what the
    [match] callback of the list of loaded accounts compares; no setter
    used here writes it. *)
Record oidc_account : Type := mk_account {
  acc_identity : string;
  access_token : cstr;
  refresh_token : cstr;
  client_id : cstr;
  client_secret : cstr;
}.

Inductive field : Type :=
| AccessToken
| RefreshToken
| ClientId
| ClientSecret.

#[global] Instance field_eq_dec : EqDecision field.
Proof. solve_decision. Defined.

Definition get_field (f : field) (a : oidc_account) : cstr :=
  match f with
  | AccessToken => access_token a
  | RefreshToken => refresh_token a
  | ClientId => client_id a
  | ClientSecret => client_secret a
  end.

Definition set_field (f : field) (v : cstr) (a : oidc_account)
  : oidc_account :=
  match f with
  | AccessToken =>
      mk_account (acc_identity a) v (refresh_token a) (client_id a)
        (client_secret a)
  | RefreshToken =>
      mk_account (acc_identity a) (access_token a) v (client_id a)
        (client_secret a)
  | ClientId =>
      mk_account (acc_identity a) (access_token a) (refresh_token a) v
        (client_secret a)
  | ClientSecret =>
      mk_account (acc_identity a) (access_token a) (refresh_token a)
        (client_id a) v
  end.

(** ** Program state *)

(** Calls that leave this file, in the order they are made. *)
Inductive call `{Collaborators} : Type :=
| Call_promptPassword (msg : string)
| Call_oidc_perror (e : oidc_error)
| Call_crypt_encrypt (text password : cstr)
| Call_crypt_decrypt (cipher password : cstr)
| Call_crypt_decryptFromList (lines : list string) (password : cstr)
| Call_crypt_decrypt_hex (cipher : cstr) (cipher_len : Z)
    (password nonce salt : cstr)
| Call_crypt_encryptWithKey (msg : string) (k : key)
| Call_crypt_decryptWithKey (c : encryptionInfo) (len : Z) (k : key).

Record state `{Collaborators} : Type := mk_state {
  oidc_errno : oidc_error;
  calls : list call;
  outside : world;
  memory : loc -> oidc_account;
}.
Arguments mk_state {_} _ _ _ _.

(** A computation that may read and write the state. *)
Definition M `{Collaborators} (A : Type) : Type := state -> A * state.

#[global] Instance M_ret `{Collaborators} : MRet M :=
  fun A (a : A) st => (a, st).
#[global] Instance M_bind `{Collaborators} : MBind M :=
  fun A B (f : A -> M B) (m : M A) st => let '(a, st') := m st in f a st'.

Definition set_errno `{Collaborators} (e : oidc_error) : M unit :=
  fun st => (tt, mk_state e (calls st) (outside st) (memory st)).

Definition get_errno `{Collaborators} : M oidc_error :=
  fun st => (oidc_errno st, st).

Definition log `{Collaborators} (c : call) : M unit :=
  fun st => (tt, mk_state (oidc_errno st) (calls st ++ [c]) (outside st)
                    (memory st)).

(** Run a collaborator that uses the outside. *)
Definition with_world `{Collaborators} {A : Type} (f : world -> A * world)
  : M A :=
  fun st => let '(a, w) := f (outside st) in
            (a, mk_state (oidc_errno st) (calls st) w (memory st)).

(** A pointer result: [NULL] comes with [oidc_errno] set. *)
Definition returning `{Collaborators} (o : outcome) : M cstr :=
  match o with
  | Ok s => mret (Some s)
  | Err e => set_errno e;; mret None
  end.

(** Modelled from the spec: [oidc_setArgNullFuncError(__func__)], which
    records that a required argument is missing. *)
Definition oidc_setArgNullFuncError `{Collaborators} : M unit :=
  set_errno OIDC_EARGNULLFUNC.

(** Modelled from the spec: [oidc_perror()], which reports the error of
    the failed attempt, the one in [oidc_errno]. *)
Definition oidc_perror `{Collaborators} : M unit :=
  e ← get_errno; log (Call_oidc_perror e).

Definition do_promptPassword `{Collaborators} (msg : string) : M cstr :=
  log (Call_promptPassword msg);; with_world (promptPassword msg).

Definition do_crypt_encrypt `{Collaborators} (text password : cstr)
  : M cstr :=
  log (Call_crypt_encrypt text password);;
  o ← with_world (crypt_encrypt text password); returning o.

Definition do_crypt_decrypt `{Collaborators} (cipher password : cstr)
  : M cstr :=
  log (Call_crypt_decrypt cipher password);;
  returning (crypt_decrypt cipher password).

Definition do_crypt_decryptFromList `{Collaborators} (lines : list string)
  (password : cstr) : M cstr :=
  log (Call_crypt_decryptFromList lines password);;
  returning (crypt_decryptFromList lines password).

Definition do_crypt_decrypt_hex `{Collaborators} (cipher : cstr)
  (cipher_len : Z) (password nonce salt : cstr) : M cstr :=
  log (Call_crypt_decrypt_hex cipher cipher_len password nonce salt);;
  returning (crypt_decrypt_hex cipher cipher_len password nonce salt).

Definition do_crypt_encryptWithKey `{Collaborators} (msg : string)
  (k : key) : M encryptionInfo :=
  log (Call_crypt_encryptWithKey msg k);;
  with_world (crypt_encryptWithKey msg k).

Definition do_crypt_decryptWithKey `{Collaborators} (c : encryptionInfo)
  (len : Z) (k : key) : M cstr :=
  log (Call_crypt_decryptWithKey c len k);;
  returning (crypt_decryptWithKey c len k).

(** Modelled from the spec: the field accessors of the credential record,
    [account_getX(p)] and [account_setX(p, v)], which read and replace one
    field of the account [p] points to. *)
Definition account_get `{Collaborators} (f : field) (p : loc) : M cstr :=
  fun st => (get_field f (memory st p), st).

Definition account_set `{Collaborators} (f : field) (p : loc) (v : cstr)
  : M unit :=
  fun st => (tt, mk_state (oidc_errno st) (calls st) (outside st)
                    (<[p := set_field f v (memory st p)]> (memory st))).

(** ** The functions of [cryptUtils.c] *)

(** [decryptHexFileContent(cipher, password)]: the format written before
    2.1.0, [cipher_len:salt:nonce:cipher].  [strToInt] returns an [int],
    stored in an [unsigned long].  With a [NULL] cipher the C code calls
    [strtok(NULL, ":")] with no string to go on, which is undefined and
    faults in practice; the value the definition has there is not the
    code's, and the properties are stated for a cipher that is there. *)
Definition decryptHexFileContent `{Collaborators} (cipher password : cstr)
  : M cstr :=
  let fileText := cipher in
  let '(len_str, save) := strtok fileText COLON None in
  let cipher_len := to_ulong (strToInt len_str) in
  let '(salt_encoded, save) := strtok None COLON save in
  let '(nonce_encoded, save) := strtok None COLON save in
  let '(cipher_encoded, save) := strtok None COLON save in
  if bool_decide (cipher_len = 0) || bool_decide (salt_encoded = None)
     || bool_decide (nonce_encoded = None)
     || bool_decide (cipher_encoded = None)
  then set_errno OIDC_ECRYPM;; mret None
  else do_crypt_decrypt_hex cipher_encoded cipher_len password
         nonce_encoded salt_encoded.

(** The version line [decryptLinesList] looks at: the last line, when there
    is more than one. *)
Definition version_line_of (lines : list string) : cstr :=
  let node := list_at lines (-1) in
  if (1 <? Z.of_nat (length lines))%Z then node else None.

(** [decryptLinesList(lines, password)] *)
Definition decryptLinesList `{Collaborators} (lines : list string)
  (password : cstr) : M cstr :=
  let cipher := list_at lines 0 in
  let version_line := version_line_of lines in
  let version := versionLineToSimpleVersion version_line in
  if versionAtLeast version (Some MIN_BASE64_VERSION)
  then do_crypt_decryptFromList lines password
  else decryptHexFileContent cipher password.

(** The loop of [decryptFile]: [tries] is [MAX_PASS_TRIES - i], and the
    loop goes on while [ret == NULL]. *)
Fixpoint decryptFile_loop `{Collaborators} (tries : nat)
  (lines : list string) (ret : cstr) : M cstr :=
  match tries with
  | O => mret ret
  | S tries' =>
      match ret with
      | Some _ => mret ret
      | None =>
          promptedPassword ← do_promptPassword "Enter decryption Password: ";
          ret ← decryptLinesList lines promptedPassword;
          match ret with
          | None => oidc_perror
          | Some _ => mret tt
          end;;
          decryptFile_loop tries' lines ret
      end
  end.

(** [decryptFile(filepath, password)] *)
Definition decryptFile `{Collaborators} (filepath password : cstr)
  : M cstr :=
  lines ← (fun st => (getLinesFromFile filepath (outside st), st));
  match password with
  | Some _ => decryptLinesList lines password
  | None => decryptFile_loop MAX_PASS_TRIES lines None
  end.

(** [decryptFileContent(fileContent, password)] *)
Definition decryptFileContent `{Collaborators} (fileContent password : cstr)
  : M cstr :=
  let lines := delimitedStringToList fileContent LF in
  decryptLinesList lines password.

(** [decryptText(cipher, password, version)] *)
Definition decryptText `{Collaborators} (cipher password version : cstr)
  : M cstr :=
  if bool_decide (cipher = None) || bool_decide (password = None)
  then oidc_setArgNullFuncError;; mret None
  else if versionAtLeast version (Some MIN_BASE64_VERSION)
       then do_crypt_decrypt cipher password
       else decryptHexFileContent cipher password.

(** [encryptText(text, password)] *)
Definition encryptText `{Collaborators} (text password : cstr) : M cstr :=
  do_crypt_encrypt text password.

(** [encryptWithVersionLine(text, password)]; the result is
    [oidc_sprintf("%s\n%s", crypt, version_line)]. *)
Definition encryptWithVersionLine `{Collaborators} (text password : cstr)
  : M cstr :=
  crypt ← encryptText text password;
  let version_line := simpleVersionToVersionLine (Some VERSION) in
  mret (Some (fmt_s crypt +:+ String LF (fmt_s version_line))).

(** [encryptForIpc(msg, key)]; the result is
    [oidc_sprintf("%lu:%s:%s", strlen(msg), nonce_base64, encrypted_base64)]. *)
Definition encryptForIpc `{Collaborators} (msg : string) (k : key)
  : M cstr :=
  cryptResult ← do_crypt_encryptWithKey msg k;
  match encrypted_base64 cryptResult with
  | None => mret None
  | Some _ =>
      mret (Some (fmt_lu (strlen msg) +:+
                  String COLON (fmt_s (nonce_base64 cryptResult) +:+
                  String COLON (fmt_s (encrypted_base64 cryptResult)))))
  end.

(** [decryptForIpc(msg, key)] *)
Definition decryptForIpc `{Collaborators} (msg : cstr) (k : key) : M cstr :=
  match msg with
  | None => oidc_setArgNullFuncError;; mret None
  | Some _ =>
      let msg_tmp := msg in
      let '(len_str, save) := strtok msg_tmp COLON None in
      let '(nonce_base64, save) := strtok None COLON save in
      let '(encrypted_base64, save) := strtok None COLON save in
      let msg_len := strToULong len_str in
      if bool_decide (nonce_base64 = None)
         || bool_decide (encrypted_base64 = None)
      then set_errno OIDC_ECRYPMIPC;; mret None
      else
        let crypt : encryptionInfo :=
          (encrypted_base64, nonce_base64, newCryptParameters) in
        do_crypt_decryptWithKey crypt
          (size_add msg_len (mac_len (crypt_parameter crypt))) k
  end.

(** The loop of [lockEncrypt] over the nodes from the head. *)
Fixpoint lockEncrypt_nodes `{Collaborators} (nodes : list loc)
  (password : cstr) : M oidc_error :=
  match nodes with
  | [] => mret OIDC_SUCCESS
  | acc :: nodes' =>
      tmp ← (t ← account_get AccessToken acc; encryptText t password);
      match tmp with
      | None => get_errno
      | Some _ =>
      account_set AccessToken acc tmp;;
      tmp ← (t ← account_get RefreshToken acc; encryptText t password);
      match tmp with
      | None => get_errno
      | Some _ =>
      account_set RefreshToken acc tmp;;
      tmp ← (t ← account_get ClientId acc; encryptText t password);
      match tmp with
      | None => get_errno
      | Some _ =>
      account_set ClientId acc tmp;;
      tmp ← (t ← account_get ClientSecret acc; encryptText t password);
      match tmp with
      | None => get_errno
      | Some _ =>
      account_set ClientSecret acc tmp;;
      lockEncrypt_nodes nodes' password
      end end end end
  end.

(** [lockEncrypt(loaded, password)] *)
Definition lockEncrypt `{Collaborators} (loaded : list loc)
  (password : cstr) : M oidc_error :=
  lockEncrypt_nodes loaded password.

(** The loop of [lockDecrypt]. *)
Fixpoint lockDecrypt_nodes `{Collaborators} (nodes : list loc)
  (password : cstr) : M oidc_error :=
  match nodes with
  | [] => mret OIDC_SUCCESS
  | acc :: nodes' =>
      tmp ← (t ← account_get AccessToken acc; do_crypt_decrypt t password);
      match tmp with
      | None => get_errno
      | Some _ =>
      account_set AccessToken acc tmp;;
      tmp ← (t ← account_get RefreshToken acc; do_crypt_decrypt t password);
      match tmp with
      | None => get_errno
      | Some _ =>
      account_set RefreshToken acc tmp;;
      tmp ← (t ← account_get ClientId acc; do_crypt_decrypt t password);
      match tmp with
      | None => get_errno
      | Some _ =>
      account_set ClientId acc tmp;;
      tmp ← (t ← account_get ClientSecret acc; do_crypt_decrypt t password);
      match tmp with
      | None => get_errno
      | Some _ =>
      account_set ClientSecret acc tmp;;
      lockDecrypt_nodes nodes' password
      end end end end
  end.

(** [lockDecrypt(loaded, password)] *)
Definition lockDecrypt `{Collaborators} (loaded : list loc)
  (password : cstr) : M oidc_error :=
  lockDecrypt_nodes loaded password.

(** Modelled from the spec: [findInList(l, v)] ([utils/listUtils.h]), the
    equality-based lookup of the container, which finds the matching entry
    by identity equality: the first node whose value has the identity of
    [v], as its position and its value. *)
Definition findInList `{Collaborators} (l : list loc) (v : loc)
  : M (option (nat * loc)) :=
  fun st =>
    (list_find
       (fun p => acc_identity (memory st v) = acc_identity (memory st p)) l,
     st).

(** Modelled from the spec: [list_remove(self, node)] and
    [list_rpush(self, node)] of the container, which remove the old entry
    and insert the record at the tail. *)
Definition list_remove {A : Type} (self : list A) (node : nat) : list A :=
  delete node self.

Definition list_rpush {A : Type} (self : list A) (val : A) : list A :=
  self ++ [val].

(** [getAccountFromList(loaded_accounts, key)]; nodes of the list hold
    accounts, never [NULL]. *)
Definition getAccountFromList `{Collaborators} (loaded_accounts : list loc)
  (key : loc) : M (option loc) :=
  node ← findInList loaded_accounts key;
  match node with
  | None => mret None
  | Some (_, account) =>
      (t ← account_get RefreshToken account;
       account_set RefreshToken account (memoryDecrypt t));;
      (t ← account_get ClientId account;
       account_set ClientId account (memoryDecrypt t));;
      (t ← account_get ClientSecret account;
       account_set ClientSecret account (memoryDecrypt t));;
      mret (Some account)
  end.

(** [addAccountToList(loaded_accounts, account)]; the list is changed in
    place, so the new list is the result. *)
Definition addAccountToList `{Collaborators} (loaded_accounts : list loc)
  (account : loc) : M (list loc) :=
  (t ← account_get RefreshToken account;
   account_set RefreshToken account (memoryEncrypt t));;
  (t ← account_get ClientId account;
   account_set ClientId account (memoryEncrypt t));;
  (t ← account_get ClientSecret account;
   account_set ClientSecret account (memoryEncrypt t));;
  node ← findInList loaded_accounts account;
  let loaded_accounts :=
    match node with
    | Some (i, val) =>
        if bool_decide (val ≠ account) then list_remove loaded_accounts i
        else loaded_accounts
    | None => loaded_accounts
    end in
  let loaded_accounts :=
    match node with
    | Some (_, val) =>
        if bool_decide (val ≠ account) then list_rpush loaded_accounts account
        else loaded_accounts
    | None => list_rpush loaded_accounts account
    end in
  mret loaded_accounts.

(** ** Vocabulary of the properties *)

(** The colon separated fields of an envelope, as [strtok] hands them out. *)
Definition fields (envelope : string) : list string := tokens COLON envelope.

(** What [sscanf]'s [%d] needs to convert anything: after blanks and one
    optional sign, a digit. *)
Definition is_blank (c : ascii) : bool :=
  let n := nat_of_ascii c in
  Nat.eqb n 32 || (Nat.leb 9 n && Nat.leb n 13).

Definition is_digit (c : ascii) : bool :=
  let n := nat_of_ascii c in Nat.leb 48 n && Nat.leb n 57.

Definition is_sign (c : ascii) : bool :=
  Ascii.eqb c "+" || Ascii.eqb c "-".

Fixpoint skip_blanks (s : string) : string :=
  match s with
  | String c s' => if is_blank c then skip_blanks s' else s
  | EmptyString => EmptyString
  end.

Definition numeric (s : string) : bool :=
  match skip_blanks s with
  | String c s' =>
      if is_sign c
      then match s' with String c' _ => is_digit c' | EmptyString => false end
      else is_digit c
  | EmptyString => false
  end.

(** The length field of a legacy envelope is missing, not a number, or
    zero. *)
Definition bad_length_field `{Collaborators} (envelope : string) : Prop :=
  match fields envelope !! 0%nat with
  | None => True
  | Some t => numeric t = false \/ strToInt (Some t) = 0
  end.

(** The calls made between two states. *)
Definition calls_since `{Collaborators} (st st' : state) (new : list call)
  : Prop :=
  calls st' = calls st ++ new.

Definition is_prompt `{Collaborators} (c : call) : bool :=
  match c with Call_promptPassword _ => true | _ => false end.

Definition is_perror `{Collaborators} (c : call) : bool :=
  match c with Call_oidc_perror _ => true | _ => false end.

(** A call of a decryption primitive. *)
Definition is_decrypt `{Collaborators} (c : call) : bool :=
  match c with
  | Call_crypt_decrypt _ _ | Call_crypt_decryptFromList _ _
  | Call_crypt_decrypt_hex _ _ _ _ _ | Call_crypt_decryptWithKey _ _ _ => true
  | _ => false
  end.

Definition count `{Collaborators} (p : call -> bool) (l : list call) : nat :=
  length (filter (fun c => p c = true) l).

(** The secret fields in the order the lock layer walks them. *)
Definition all_fields : list field :=
  [AccessToken; RefreshToken; ClientId; ClientSecret].

(** The fields the memory layer wraps. *)
Definition wrapped_fields : list field :=
  [RefreshToken; ClientId; ClientSecret].

(** The work list of [lockEncrypt]: every field of every node, in order. *)
Definition lock_items (loaded : list loc) : list (loc * field) :=
  flat_map (fun acc => map (pair acc) all_fields) loaded.

(** [c] is what the primitive gave for [text] under [password], in some
    state of the outside. *)
Definition encryption_of `{Collaborators} (text password : cstr)
  (c : string) : Prop :=
  exists w, (crypt_encrypt text password w).1 = Ok c.

(** The memory layer applied to an account: three fields wrapped. *)
Definition wrap_account `{Collaborators} (a : oidc_account) : oidc_account :=
  mk_account (acc_identity a) (access_token a)
    (memoryEncrypt (refresh_token a)) (memoryEncrypt (client_id a))
    (memoryEncrypt (client_secret a)).

Definition unwrap_account `{Collaborators} (a : oidc_account)
  : oidc_account :=
  mk_account (acc_identity a) (access_token a)
    (memoryDecrypt (refresh_token a)) (memoryDecrypt (client_id a))
    (memoryDecrypt (client_secret a)).

(** The identities of the accounts of a store. *)
Definition identities `{Collaborators} (st : state) (loaded : list loc)
  : list string :=
  (fun p => acc_identity (memory st p)) <$> loaded.

(** The data model's invariant of the store of loaded accounts: at most one
    entry per identity. *)
Definition unique_by_identity `{Collaborators} (st : state)
  (loaded : list loc) : Prop :=
  NoDup (identities st loaded).

(** The version marker of an envelope given as lines: what the version
    utility reads from the version line, if anything. *)
Definition version_marker `{Collaborators} (lines : list string) : cstr :=
  versionLineToSimpleVersion (version_line_of lines).

(** Text that can sit between the colons of an envelope: not empty, no
    colon. *)
Definition text_safe (s : string) : Prop :=
  free_of COLON s = true /\ s <> EmptyString.

(** [lockEncrypt] seen as one loop over its work list. *)
Fixpoint encrypt_items `{Collaborators} (items : list (loc * field))
  (password : cstr) : M oidc_error :=
  match items with
  | [] => mret OIDC_SUCCESS
  | (acc, f) :: items' =>
      tmp ← (t ← account_get f acc; encryptText t password);
      match tmp with
      | None => get_errno
      | Some _ => account_set f acc tmp;; encrypt_items items' password
      end
  end.

(** The entry of the store [findInList] finds for [key]: the first one with
    the identity of [key], with its position. *)
Definition matching_entry `{Collaborators} (st : state) (loaded : list loc)
  (key : loc) : option (nat * loc) :=
  (findInList loaded key st).1.

(** [n] calls of [addAccountToList] in a row on the same account. *)
Fixpoint addAccountToList_times `{Collaborators} (n : nat)
  (loaded : list loc) (account : loc) : M (list loc) :=
  match n with
  | O => mret loaded
  | S n' =>
      loaded' ← addAccountToList loaded account;
      addAccountToList_times n' loaded' account
  end.

(** ** More of [cryptUtils.c] *)

(** [decryptOidcFile(filename, password)]; [concatToOidcDir], which builds
    the path of a file of the agent's directory, is the argument
    [concatToOidcDir]. *)
Definition decryptOidcFile `{Collaborators} (concatToOidcDir : cstr -> cstr)
  (filename password : cstr) : M cstr :=
  let filepath := concatToOidcDir filename in
  decryptFile filepath password.

(** One prompted attempt of [decryptFile] in the state [st]: the password
    typed at the prompt, what decoding the lines with it gives, and the
    state after the decoding. *)
Definition attempt `{Collaborators} (lines : list string) (st : state)
  : (cstr * cstr) * state :=
  let p := do_promptPassword "Enter decryption Password: " st in
  let r := decryptLinesList lines p.1 p.2 in
  ((p.1, r.1), r.2).

(** The prompted attempts as the specification words them, to compare the
    loop with: [prompted_run lines n st tried ret st'] says that with [n]
    tries left and starting in [st], the attempts [tried] (password typed,
    outcome of its decoding) were made one after the other, ending in [st']
    with the result [ret].  With no try left nothing is attempted and the
    result is [NULL]; an attempt that decodes ends the run at once with its
    plaintext; after an attempt that fails the error is reported and the
    run goes on with one try less. *)
Inductive prompted_run `{Collaborators} (lines : list string)
  : nat -> state -> list (cstr * cstr) -> cstr -> state -> Prop :=
| run_exhausted st :
    prompted_run lines 0 st [] None st
| run_success n st pw plain st' :
    attempt lines st = ((pw, Some plain), st') ->
    prompted_run lines (S n) st [(pw, Some plain)] (Some plain) st'
| run_retry n st pw st1 tried ret st' :
    attempt lines st = ((pw, None), st1) ->
    prompted_run lines n (oidc_perror st1).2 tried ret st' ->
    prompted_run lines (S n) st ((pw, None) :: tried) ret st'.

(** An attempt that did not decode. *)
Definition failed_attempt (a : cstr * cstr) : Prop := a.2 = None.

(** [lockDecrypt] seen as one loop over its work list. *)
Fixpoint decrypt_items `{Collaborators} (items : list (loc * field))
  (password : cstr) : M oidc_error :=
  match items with
  | [] => mret OIDC_SUCCESS
  | (acc, f) :: items' =>
      tmp ← (t ← account_get f acc; do_crypt_decrypt t password);
      match tmp with
      | None => get_errno
      | Some _ => account_set f acc tmp;; decrypt_items items' password
      end
  end.

(** The call the lock layer makes for one field, with the value the field
    has in [st]. *)
Definition encrypt_call `{Collaborators} (st : state) (password : cstr)
  (item : loc * field) : call :=
  Call_crypt_encrypt (get_field item.2 (memory st item.1)) password.

Definition decrypt_call `{Collaborators} (st : state) (password : cstr)
  (item : loc * field) : call :=
  Call_crypt_decrypt (get_field item.2 (memory st item.1)) password.

(** [p] has another identity than [account]. *)
Definition other_identity `{Collaborators} (st : state) (account p : loc)
  : Prop :=
  acc_identity (memory st p) <> acc_identity (memory st account).

(** ** A reference set of collaborators

    A small executable stand-in for the collaborators: a transparent
    "cipher" that keeps the password next to an armoured plaintext, a
    terminal that answers prompts from a queue, versions compared as
    numbers.  It shows that the contracts assumed below can be met together
    and lets the functions above run on concrete inputs. *)

Module Reference.

(** A text-safe encoding: the decimal numeral of the string's code. *)
Definition armor (s : string) : string := fmt_lu (Zpos (encode s)).

Definition parse_decimal (t : string) : option N :=
  match NilZero.uint_of_string t with
  | Some u => Some (N.of_uint u)
  | None => None
  end.

Definition dearmor (t : string) : option string :=
  match parse_decimal t with
  | Some (Npos p) => decode p
  | _ => None
  end.

Definition ref_strToULong (s : cstr) : Z :=
  match s with
  | Some t => match parse_decimal t with
              | Some n => to_ulong (Z.of_N n)
              | None => 0
              end
  | None => 0
  end.

Definition ref_strToInt (s : cstr) : Z :=
  match s with
  | Some t => if numeric t then ref_strToULong s else 0
  | None => 0
  end.

Definition version_prefix : string := "Generated using version ".

Fixpoint strip_prefix (p s : string) : option string :=
  match p, s with
  | EmptyString, _ => Some s
  | String a p', String b s' =>
      if Ascii.eqb a b then strip_prefix p' s' else None
  | _, EmptyString => None
  end.

Definition version_number (v : string) : option Z :=
  match tokens "."%char v with
  | [a; b; c] =>
      match parse_decimal a, parse_decimal b, parse_decimal c with
      | Some x, Some y, Some z =>
          Some (Z.of_N x * 1000000 + Z.of_N y * 1000 + Z.of_N z)
      | _, _, _ => None
      end
  | _ => None
  end.

Definition ref_versionLineToSimpleVersion (line : cstr) : cstr :=
  match line with
  | Some l =>
      match strip_prefix version_prefix l with
      | Some v => if is_Some_dec (version_number v) then Some v else None
      | None => None
      end
  | None => None
  end.

Definition ref_simpleVersionToVersionLine (v : cstr) : cstr :=
  Some (version_prefix +:+ fmt_s v).

Definition ref_versionAtLeast (v m : cstr) : bool :=
  match v, m with
  | Some v, Some m =>
      match version_number v, version_number m with
      | Some x, Some y => (y <=? x)%Z
      | _, _ => false
      end
  | _, _ => false
  end.

(** The password cipher: two lines, the armoured text and the armoured
    password. *)
Definition ref_crypt_encrypt (text password : cstr) (w : list cstr)
  : outcome * list cstr :=
  match text, password with
  | Some t, Some p => (Ok (armor t +:+ String LF (armor p)), w)
  | _, _ => (Err OIDC_EARGNULLFUNC, w)
  end.

Definition ref_crypt_decryptFromList (lines : list string) (password : cstr)
  : outcome :=
  match lines, password with
  | c :: k :: _, Some p =>
      if bool_decide (k = armor p)
      then match dearmor c with
           | Some t => Ok t
           | None => Err OIDC_ECRYPM
           end
      else Err (OIDC_ELIB 1)
  | _, _ => Err OIDC_EARGNULLFUNC
  end.

Definition ref_crypt_decrypt (cipher password : cstr) : outcome :=
  match cipher with
  | Some c => ref_crypt_decryptFromList (tokens LF c) password
  | None => Err OIDC_EARGNULLFUNC
  end.

(** The legacy cipher: the armoured text, accepted when the length that
    was announced is the length of the text. *)
Definition ref_crypt_decrypt_hex (cipher : cstr) (cipher_len : Z)
  (password nonce salt : cstr) : outcome :=
  match cipher with
  | Some c =>
      match dearmor c with
      | Some t => if bool_decide (cipher_len = strlen t) then Ok t
                  else Err (OIDC_ELIB 1)
      | None => Err OIDC_ECRYPM
      end
  | None => Err OIDC_EARGNULLFUNC
  end.

Definition ref_mac_len : Z := 16.

(** The key cipher: the nonce is the armoured key, the ciphertext the
    armoured message; decryption checks the key and the expected size. *)
Definition armor_key (k : key) : string :=
  fmt_lu (Zpos (encode (map Byte.to_N k))).

Definition ref_crypt_encryptWithKey (msg : string) (k : key) (w : list cstr)
  : (cstr * cstr * unit) * list cstr :=
  ((Some (armor msg), Some (armor_key k), tt), w).

Definition ref_crypt_decryptWithKey (c : cstr * cstr * unit) (len : Z)
  (k : key) : outcome :=
  match c with
  | (Some e, Some n, _) =>
      if bool_decide (n = armor_key k)
      then match dearmor e with
           | Some m =>
               if bool_decide (len = size_add (strlen m) ref_mac_len)
               then Ok m else Err (OIDC_ELIB 2)
           | None => Err OIDC_ECRYPMIPC
           end
      else Err (OIDC_ELIB 1)
  | _ => Err OIDC_EARGNULLFUNC
  end.

(** The memory cipher: a one-character wrapper. *)
Definition ref_memoryEncrypt (s : cstr) : cstr :=
  match s with Some t => Some (String "~" t) | None => None end.

Definition ref_memoryDecrypt (s : cstr) : cstr :=
  match s with
  | Some (String c t) => if Ascii.eqb c "~" then Some t else None
  | _ => None
  end.

(** The terminal: the passwords the user is going to type. *)
Definition ref_promptPassword (msg : string) (w : list cstr)
  : cstr * list cstr :=
  match w with
  | p :: w' => (p, w')
  | [] => (None, [])
  end.

(** Files: the path is the content. *)
Definition ref_getLinesFromFile (path : cstr) (w : list cstr)
  : list string :=
  match path with Some p => tokens LF p | None => [] end.

Definition ref_delimitedStringToList (s : cstr) (d : ascii) : list string :=
  match s with Some t => tokens d t | None => [] end.

Definition collaborators : Collaborators := {|
  world := list cstr;
  MAX_PASS_TRIES := 3;
  MIN_BASE64_VERSION := "2.1.0";
  VERSION := "4.1.0";
  versionLineToSimpleVersion := ref_versionLineToSimpleVersion;
  simpleVersionToVersionLine := ref_simpleVersionToVersionLine;
  versionAtLeast := ref_versionAtLeast;
  strToInt := ref_strToInt;
  strToULong := ref_strToULong;
  delimitedStringToList := ref_delimitedStringToList;
  getLinesFromFile := ref_getLinesFromFile;
  promptPassword := ref_promptPassword;
  crypt_encrypt := ref_crypt_encrypt;
  crypt_decrypt := ref_crypt_decrypt;
  crypt_decryptFromList := ref_crypt_decryptFromList;
  crypt_decrypt_hex := ref_crypt_decrypt_hex;
  cryptParameter := unit;
  mac_len := fun _ => ref_mac_len;
  newCryptParameters := tt;
  crypt_encryptWithKey := ref_crypt_encryptWithKey;
  crypt_decryptWithKey := ref_crypt_decryptWithKey;
  memoryEncrypt := ref_memoryEncrypt;
  memoryDecrypt := ref_memoryDecrypt;
|}.

(** A state with nothing logged, the given passwords waiting at the
    terminal and the given accounts in memory ([blank] everywhere else). *)
Definition blank : oidc_account := mk_account EmptyString None None None None.

Definition start (typed : list cstr) (mem : loc -> oidc_account)
  : @state collaborators :=
  @mk_state collaborators OIDC_SUCCESS [] typed mem.

(** Memory holding the given accounts at the addresses [0], [1], ... *)
Definition mem_of (accounts : list oidc_account) : loc -> oidc_account :=
  fun p => default blank (accounts !! p).

(** An account with all its secrets, the same configuration loaded a
    second time, another configuration, and an account that has no
    refresh token. *)
Definition work : oidc_account :=
  mk_account "work" (Some "AT") (Some "RT") (Some "id") (Some "secret").
Definition work_again : oidc_account :=
  mk_account "work" (Some "AT2") (Some "RT2") (Some "id") (Some "secret").
Definition home : oidc_account :=
  mk_account "home" (Some "at") (Some "rt") (Some "me") (Some "hush").
Definition no_refresh : oidc_account :=
  mk_account "work" (Some "AT") None (Some "id") (Some "secret").

End Reference.

(** * Properties *)

(** Unfold the plumbing of the state monad and of the logged calls. *)
Ltac run_M :=
  cbv [mbind M_bind mret M_ret account_get account_set encryptText
       do_crypt_encrypt do_crypt_decrypt do_crypt_decryptFromList
       do_crypt_decrypt_hex do_crypt_encryptWithKey do_crypt_decryptWithKey
       do_promptPassword with_world log get_errno set_errno returning
       oidc_perror oidc_setArgNullFuncError findInList].

(** ** libc: tokens *)

Module StrtokFacts.

Lemma split_not_nil d s : split d s <> [].
Proof.
  destruct s as [|c s]; simpl; [done|].
  destruct (Ascii.eqb c d); [done|]. by destruct (split d s).
Qed.

Lemma split_app d a b :
  split d (a +:+ String d b) = split d a ++ split d b.
Proof.
  induction a as [|c a IH]; simpl.
  - by rewrite Ascii.eqb_refl.
  - destruct (Ascii.eqb c d); [by rewrite IH|].
    rewrite IH. pose proof (split_not_nil d a) as Hne.
    by destruct (split d a).
Qed.

Lemma split_free d s : free_of d s = true -> split d s = [s].
Proof.
  induction s as [|c s IH]; simpl; [done|].
  destruct (Ascii.eqb c d); simpl; [done|].
  intros Hs. by rewrite (IH Hs).
Qed.

Lemma tokens_app d a b :
  tokens d (a +:+ String d b) = tokens d a ++ tokens d b.
Proof. unfold tokens. by rewrite split_app, filter_app. Qed.

Lemma tokens_free d s :
  free_of d s = true -> s <> EmptyString -> tokens d s = [s].
Proof.
  intros Hf Hs. unfold tokens. rewrite (split_free _ _ Hf).
  rewrite filter_cons_True; [done|]. by destruct s.
Qed.

Lemma tokens_delim d s : tokens d (String d s) = tokens d s.
Proof.
  unfold tokens. simpl. rewrite Ascii.eqb_refl.
  by rewrite filter_cons_False.
Qed.

(** The token [take_token] cuts is the first field, and the rest holds the
    remaining tokens. *)
Lemma take_token_split d s :
  exists ts, split d s = (take_token d s).1 :: ts /\
             filter (fun t => nonempty t = true) ts
             = tokens d (take_token d s).2.
Proof.
  induction s as [|c s [ts [Hs Hf]]]; simpl.
  - by exists [].
  - destruct (Ascii.eqb c d) eqn:Hc; simpl.
    + by exists (split d s).
    + destruct (take_token d s) as [t r]; simpl in *.
      exists ts. by rewrite Hs.
Qed.

Lemma tokens_cons_ne d c s :
  Ascii.eqb c d = false ->
  tokens d (String c s)
  = String c (take_token d s).1 :: tokens d (take_token d s).2.
Proof.
  intros Hc. destruct (take_token_split d s) as [ts [Hs Hf]].
  unfold tokens at 1. simpl. rewrite Hc, Hs.
  rewrite filter_cons_True by done. by rewrite Hf.
Qed.

Lemma strtok_cons_ne d c s sv :
  Ascii.eqb c d = false ->
  strtok (Some (String c s)) d sv
  = (Some (String c (take_token d s).1), Some (take_token d s).2).
Proof.
  intros Hc. unfold strtok. simpl. rewrite Hc. simpl. rewrite Hc.
  by destruct (take_token d s).
Qed.

(** [strtok] on a fresh string: the first token, and a save pointer that
    holds the others. *)
Lemma strtok_start d s sv :
  exists r, strtok (Some s) d sv = (head (tokens d s), Some r) /\
            tokens d r = tail (tokens d s).
Proof.
  induction s as [|c s IH].
  - by exists EmptyString.
  - destruct (Ascii.eqb c d) eqn:Hc.
    + apply Ascii.eqb_eq in Hc as ->. rewrite tokens_delim.
      destruct IH as [r [Hr Ht]]. exists r. split; [|done].
      rewrite <- Hr. unfold strtok. simpl. by rewrite Ascii.eqb_refl.
    + exists (take_token d s).2.
      by rewrite strtok_cons_ne, tokens_cons_ne.
Qed.

(** [strtok(NULL, _)] goes on where the save pointer stands. *)
Lemma strtok_next d r :
  strtok None d (Some r) = strtok (Some r) d None.
Proof. done. Qed.

(** Four calls in a row hand out the first four tokens. *)
Lemma strtok_four d s :
  exists s1 s2 s3 s4,
    strtok (Some s) d None = (tokens d s !! 0%nat, Some s1) /\
    strtok None d (Some s1) = (tokens d s !! 1%nat, Some s2) /\
    strtok None d (Some s2) = (tokens d s !! 2%nat, Some s3) /\
    strtok None d (Some s3) = (tokens d s !! 3%nat, Some s4).
Proof.
  destruct (strtok_start d s None) as [s1 [H1 T1]].
  destruct (strtok_start d s1 None) as [s2 [H2 T2]].
  destruct (strtok_start d s2 None) as [s3 [H3 T3]].
  destruct (strtok_start d s3 None) as [s4 [H4 T4]].
  exists s1, s2, s3, s4. rewrite !strtok_next, H1, H2, H3, H4, T3, T2, T1.
  destruct (tokens d s) as [|t0 [|t1 [|t2 [|t3 l]]]]; done.
Qed.

End StrtokFacts.
Import StrtokFacts.

(** ** Basic facts about the state *)

Section StateFacts.
Context `{Collaborators}.

Lemma calls_since_refl st : calls_since st st [].
Proof. unfold calls_since. by rewrite app_nil_r. Qed.

Lemma calls_since_trans st1 st2 st3 l1 l2 :
  calls_since st1 st2 l1 -> calls_since st2 st3 l2 ->
  calls_since st1 st3 (l1 ++ l2).
Proof. unfold calls_since. intros H1 ->. by rewrite H1, app_assoc. Qed.

Lemma count_app p l1 l2 : count p (l1 ++ l2) = (count p l1 + count p l2)%nat.
Proof. unfold count. by rewrite filter_app, length_app. Qed.

(** A pointer result keeps the log, the outside and the memory. *)
Lemma returning_frame o st :
  calls (returning o st).2 = calls st /\
  outside (returning o st).2 = outside st /\
  memory (returning o st).2 = memory st.
Proof. by destruct o. Qed.

Lemma returning_Err e st :
  (returning (Err e) st).1 = None /\ oidc_errno (returning (Err e) st).2 = e.
Proof. done. Qed.

Lemma returning_Ok s st : returning (Ok s) st = (Some s, st).
Proof. done. Qed.

End StateFacts.

(** ** The legacy envelope *)

Section LegacyEnvelope.
Context `{Collaborators}.

(** [strToInt] gives [0] for what [sscanf] cannot convert. *)
Hypothesis strToInt_not_numeric :
  forall t, numeric t = false -> strToInt (Some t) = 0.

(** What the four [strtok] calls of [decryptHexFileContent] see. *)
Lemma decryptHexFileContent_fields envelope password st :
  decryptHexFileContent (Some envelope) password st
  = (if bool_decide (to_ulong (strToInt (fields envelope !! 0%nat)) = 0)
        || bool_decide (fields envelope !! 1%nat = None)
        || bool_decide (fields envelope !! 2%nat = None)
        || bool_decide (fields envelope !! 3%nat = None)
     then set_errno OIDC_ECRYPM;; mret None
     else do_crypt_decrypt_hex (fields envelope !! 3%nat)
            (to_ulong (strToInt (fields envelope !! 0%nat))) password
            (fields envelope !! 2%nat) (fields envelope !! 1%nat)) st.
Proof.
  unfold decryptHexFileContent, fields.
  destruct (strtok_four COLON envelope) as (s1 & s2 & s3 & s4 & E1 & E2 & E3 & E4).
  rewrite E1. cbv beta iota. rewrite E2. cbv beta iota.
  rewrite E3. cbv beta iota. by rewrite E4.
Qed.

(** C5. A legacy envelope whose length field is missing, not a number or
    zero, or that lacks the salt, the nonce or the ciphertext field, makes
    [decryptHexFileContent] return [NULL] with [oidc_errno] set to
    [OIDC_ECRYPM]; nothing is added to the log of outgoing calls, so
    [crypt_decrypt_hex] is not invoked, and the rest of the state is kept. *)
Theorem decryptHexFileContent_malformed envelope password st :
  bad_length_field envelope \/
  fields envelope !! 1%nat = None \/
  fields envelope !! 2%nat = None \/
  fields envelope !! 3%nat = None ->
  let r := decryptHexFileContent (Some envelope) password st in
  r.1 = None /\
  oidc_errno r.2 = OIDC_ECRYPM /\
  calls r.2 = calls st /\
  outside r.2 = outside st /\
  memory r.2 = memory st.
Proof.
  intros Hbad. cbv zeta. rewrite decryptHexFileContent_fields.
  assert (bool_decide (to_ulong (strToInt (fields envelope !! 0%nat)) = 0)
          || bool_decide (fields envelope !! 1%nat = None)
          || bool_decide (fields envelope !! 2%nat = None)
          || bool_decide (fields envelope !! 3%nat = None) = true) as ->;
    [|done].
  destruct Hbad as [Hlen | [Hsalt | [Hnonce | Hcipher]]].
  - unfold bad_length_field in Hlen.
    destruct (fields envelope !! 0%nat) as [t|] eqn:H0.
    + assert (strToInt (Some t) = 0) as ->
        by (destruct Hlen; auto).
      done.
    + (* no token at all: the salt is missing as well *)
      assert (fields envelope !! 1%nat = None) as ->; [|by rewrite orb_true_r].
      apply lookup_ge_None. apply lookup_ge_None in H0. lia.
  - rewrite Hsalt. simpl. by rewrite orb_true_r.
  - rewrite Hnonce. simpl. by rewrite !orb_true_r.
  - rewrite Hcipher. simpl. by rewrite !orb_true_r.
Qed.

(** With four fields and a length that converts to a non-zero value the
    primitive is invoked, once, on those fields. *)
Lemma decryptHexFileContent_wellformed envelope password st n s nc c :
  fields envelope !! 0%nat = Some n ->
  fields envelope !! 1%nat = Some s ->
  fields envelope !! 2%nat = Some nc ->
  fields envelope !! 3%nat = Some c ->
  to_ulong (strToInt (Some n)) <> 0 ->
  decryptHexFileContent (Some envelope) password st
  = do_crypt_decrypt_hex (Some c) (to_ulong (strToInt (Some n))) password
      (Some nc) (Some s) st.
Proof.
  intros H0 H1 H2 H3 Hlen. rewrite decryptHexFileContent_fields.
  rewrite H0, H1, H2, H3. by rewrite (bool_decide_eq_false_2 _ Hlen).
Qed.

End LegacyEnvelope.

(** C5 on the reference collaborators: a length field that is not a number,
    and an envelope without a ciphertext field. *)
Lemma decryptHexFileContent_malformed_witness :
  let C := Reference.collaborators in
  let st := Reference.start [] (fun _ => Reference.blank) in
  (forall t, numeric t = false -> @strToInt C (Some t) = 0) /\
  @bad_length_field C "five:c2FsdA==:bm9uY2U=:Y2lwaGVy" /\
  fields "5:c2FsdA==:bm9uY2U=" !! 3%nat = None /\
  (@decryptHexFileContent C (Some "five:c2FsdA==:bm9uY2U=:Y2lwaGVy")
     (Some "pw") st).1 = None /\
  @oidc_errno C (@decryptHexFileContent C (Some "5:c2FsdA==:bm9uY2U=")
     (Some "pw") st).2 = OIDC_ECRYPM.
Proof.
  assert (Hnum : forall t, numeric t = false ->
                 @strToInt Reference.collaborators (Some t) = 0).
  { intros t Ht. simpl. unfold Reference.ref_strToInt. by rewrite Ht. }
  assert (Hbad : @bad_length_field Reference.collaborators
                   "five:c2FsdA==:bm9uY2U=:Y2lwaGVy").
  { left. reflexivity. }
  assert (Hmiss : fields "5:c2FsdA==:bm9uY2U=" !! 3%nat = None)
    by reflexivity.
  cbv zeta. split; [exact Hnum|]. split; [exact Hbad|].
  split; [exact Hmiss|]. split.
  - apply (@decryptHexFileContent_malformed Reference.collaborators Hnum
             "five:c2FsdA==:bm9uY2U=:Y2lwaGVy" (Some "pw")
             (Reference.start [] (fun _ => Reference.blank))
             (or_introl Hbad)).
  - apply (@decryptHexFileContent_malformed Reference.collaborators Hnum
             "5:c2FsdA==:bm9uY2U=" (Some "pw")
             (Reference.start [] (fun _ => Reference.blank))
             (or_intror (or_intror (or_intror Hmiss)))).
Defined.

(** ** The IPC envelope: decoding *)

Section IpcDecode.
Context `{Collaborators}.

(** What the three [strtok] calls of [decryptForIpc] see. *)
Lemma decryptForIpc_fields msg k st :
  decryptForIpc (Some msg) k st
  = (if bool_decide (fields msg !! 1%nat = None)
        || bool_decide (fields msg !! 2%nat = None)
     then set_errno OIDC_ECRYPMIPC;; mret None
     else do_crypt_decryptWithKey
            (fields msg !! 2%nat, fields msg !! 1%nat, newCryptParameters)
            (size_add (strToULong (fields msg !! 0%nat))
               (mac_len newCryptParameters)) k) st.
Proof.
  unfold decryptForIpc, fields.
  destruct (strtok_four COLON msg) as (s1 & s2 & s3 & s4 & E1 & E2 & E3 & E4).
  rewrite E1. cbv beta iota. rewrite E2. cbv beta iota. by rewrite E3.
Qed.

(** C7. [decryptForIpc] on a string [msg]: the fields are the first three
    colon separated tokens.  Without a nonce or a ciphertext field the
    result is [NULL], [oidc_errno] is [OIDC_ECRYPMIPC] and no call leaves
    the function.  Otherwise [crypt_decryptWithKey] is called once, on the
    parsed nonce and ciphertext, with the size [msg_len + mac_len] computed
    in [size_t] (the plain sum whenever that fits), its result is the
    result, and a failure of the primitive is a [NULL] result with the
    primitive's error code.  In no case is there a prompt or a second call. *)
Theorem decryptForIpc_spec msg k st :
  let r := decryptForIpc (Some msg) k st in
  let msg_len := strToULong (fields msg !! 0%nat) in
  let mac := mac_len newCryptParameters in
  (fields msg !! 1%nat = None \/ fields msg !! 2%nat = None ->
   r.1 = None /\ oidc_errno r.2 = OIDC_ECRYPMIPC /\ calls r.2 = calls st) /\
  (forall nonce cipher,
     fields msg !! 1%nat = Some nonce ->
     fields msg !! 2%nat = Some cipher ->
     let crypt := (Some cipher, Some nonce, newCryptParameters) in
     calls r.2 =
       calls st ++ [Call_crypt_decryptWithKey crypt (size_add msg_len mac) k] /\
     (0 <= msg_len + mac < ULONG_MODULUS ->
      size_add msg_len mac = msg_len + mac) /\
     (forall m, crypt_decryptWithKey crypt (size_add msg_len mac) k = Ok m ->
                r.1 = Some m) /\
     (forall e, crypt_decryptWithKey crypt (size_add msg_len mac) k = Err e ->
                r.1 = None /\ oidc_errno r.2 = e)) /\
  (exists new, calls_since st r.2 new /\
               count is_prompt new = 0%nat /\ (length new <= 1)%nat).
Proof.
  cbv zeta. rewrite decryptForIpc_fields. split; [|split].
  - intros Hmiss.
    assert (bool_decide (fields msg !! 1%nat = None)
            || bool_decide (fields msg !! 2%nat = None) = true) as ->; [|done].
    destruct Hmiss as [-> | ->]; simpl; [done | by rewrite orb_true_r].
  - intros nonce cipher Hn Hc. rewrite Hn, Hc. simpl.
    split; [|split; [|split]].
    + unfold do_crypt_decryptWithKey, mbind, M_bind, log. simpl.
      by destruct (crypt_decryptWithKey _ _ _).
    + intros Hfit. unfold size_add, to_ulong. by apply Z.mod_small.
    + intros m Hm. unfold do_crypt_decryptWithKey, mbind, M_bind, log. simpl.
      by rewrite Hm.
    + intros e He. unfold do_crypt_decryptWithKey, mbind, M_bind, log. simpl.
      by rewrite He.
  - destruct (bool_decide (fields msg !! 1%nat = None)
              || bool_decide (fields msg !! 2%nat = None)).
    + exists []. split; [|split; [done | simpl; lia]].
      unfold calls_since. simpl. by rewrite app_nil_r.
    + eexists [_]. split.
      { unfold calls_since, do_crypt_decryptWithKey, mbind, M_bind, log.
        simpl. by destruct (crypt_decryptWithKey _ _ _). }
      split; [done | simpl; lia].
Qed.

(** A [NULL] message is refused before any parsing. *)
Lemma decryptForIpc_NULL k st :
  decryptForIpc None k st
  = (None, mk_state OIDC_EARGNULLFUNC (calls st) (outside st) (memory st)).
Proof. done. Qed.

End IpcDecode.

(** C7 on the reference collaborators: an envelope without ciphertext. *)
Lemma decryptForIpc_spec_witness :
  let C := Reference.collaborators in
  let st := Reference.start [] (fun _ => Reference.blank) in
  fields "2:bm9uY2U" !! 2%nat = None /\
  (@decryptForIpc C (Some "2:bm9uY2U") [] st).1 = None /\
  @oidc_errno C (@decryptForIpc C (Some "2:bm9uY2U") [] st).2
  = OIDC_ECRYPMIPC /\
  @calls C (@decryptForIpc C (Some "2:bm9uY2U") [] st).2 = [].
Proof.
  cbv zeta. split; [reflexivity|].
  apply (proj1 (@decryptForIpc_spec Reference.collaborators "2:bm9uY2U" []
                  (Reference.start [] (fun _ => Reference.blank)))).
  right. reflexivity.
Defined.

(** ** Version dispatch *)

Section VersionDispatch.
Context `{Collaborators}.

(** The version utility gives no version for no line, and no version is
    below every threshold. *)
Hypothesis versionLine_NULL : versionLineToSimpleVersion None = None.
Hypothesis versionAtLeast_NULL : forall m, versionAtLeast None m = false.

Lemma list_at_first {A} (l : list A) : list_at l 0 = head l.
Proof. unfold list_at. simpl. by destruct l. Qed.

Lemma list_at_last {A} (l : list A) : list_at l (-1) = last l.
Proof.
  unfold list_at. simpl. rewrite <- (rev_involutive l) at 2.
  destruct (rev l) as [|x l']; [done|]. simpl.
  by rewrite last_snoc.
Qed.

(** The version line is the last line of an envelope of several lines. *)
Lemma version_line_of_spec lines :
  version_line_of lines
  = if decide (1 < length lines)%nat then last lines else None.
Proof.
  unfold version_line_of. rewrite list_at_last.
  destruct (decide (1 < length lines)%nat) as [Hl|Hl].
  - by rewrite (proj2 (Z.ltb_lt _ _)) by lia.
  - by rewrite (proj2 (Z.ltb_ge _ _)) by lia.
Qed.

(** C2. Dispatch on the version marker.  [decryptLinesList] hands an
    envelope whose marker is at or above [MIN_BASE64_VERSION] to
    [crypt_decryptFromList], and every other one to [decryptHexFileContent]
    on its first line: marker below the threshold, no marker, an envelope
    of a single line, a last line that holds no version.  [decryptText],
    given a cipher and a password, hands the cipher to [crypt_decrypt] when
    the version it is told is at or above the threshold and to
    [decryptHexFileContent] when it is not or when there is none. *)
Theorem version_dispatch lines (cipher passwd : string) password version st :
  (forall v, version_marker lines = Some v ->
     versionAtLeast (Some v) (Some MIN_BASE64_VERSION) = true ->
     decryptLinesList lines password st
     = do_crypt_decryptFromList lines password st) /\
  (forall v, version_marker lines = Some v ->
     versionAtLeast (Some v) (Some MIN_BASE64_VERSION) = false ->
     decryptLinesList lines password st
     = decryptHexFileContent (head lines) password st) /\
  (version_marker lines = None ->
     decryptLinesList lines password st
     = decryptHexFileContent (head lines) password st) /\
  ((length lines <= 1)%nat -> version_marker lines = None) /\
  (forall l, last lines = Some l ->
     versionLineToSimpleVersion (Some l) = None ->
     version_marker lines = None) /\
  (versionAtLeast version (Some MIN_BASE64_VERSION) = true ->
     decryptText (Some cipher) (Some passwd) version st
     = do_crypt_decrypt (Some cipher) (Some passwd) st) /\
  (versionAtLeast version (Some MIN_BASE64_VERSION) = false ->
     decryptText (Some cipher) (Some passwd) version st
     = decryptHexFileContent (Some cipher) (Some passwd) st) /\
  (version = None ->
     decryptText (Some cipher) (Some passwd) version st
     = decryptHexFileContent (Some cipher) (Some passwd) st).
Proof.
  repeat split.
  - intros v Hv Hge. unfold decryptLinesList.
    fold (version_marker lines). by rewrite Hv, Hge.
  - intros v Hv Hlt. unfold decryptLinesList.
    fold (version_marker lines). by rewrite Hv, Hlt, list_at_first.
  - intros Hv. unfold decryptLinesList.
    fold (version_marker lines).
    by rewrite Hv, versionAtLeast_NULL, list_at_first.
  - intros Hlen. unfold version_marker. rewrite version_line_of_spec.
    by rewrite decide_False by lia.
  - intros l Hl Hparse. unfold version_marker.
    rewrite version_line_of_spec. destruct (decide _); [|done].
    by rewrite Hl.
  - intros Hge. unfold decryptText. simpl. by rewrite Hge.
  - intros Hlt. unfold decryptText. simpl. by rewrite Hlt.
  - intros ->. unfold decryptText. simpl. by rewrite versionAtLeast_NULL.
Qed.

(** [decryptText] refuses a missing cipher or password before it looks at
    the version. *)
Lemma decryptText_NULL cipher password version st :
  cipher = None \/ password = None ->
  decryptText cipher password version st
  = (None, mk_state OIDC_EARGNULLFUNC (calls st) (outside st) (memory st)).
Proof.
  intros [-> | ->]; unfold decryptText; [done|].
  by rewrite orb_true_r.
Qed.

End VersionDispatch.

(** ** Decimal numerals *)

Module DecimalFacts.

Lemma digit_not_delim (c d : ascii) :
  is_digit c = true -> is_digit d = false -> Ascii.eqb c d = false.
Proof.
  intros Hc Hd. destruct (Ascii.eqb_spec c d) as [->|]; [|done]. congruence.
Qed.

Lemma string_of_uint_free d u :
  is_digit d = false -> free_of d (NilEmpty.string_of_uint u) = true.
Proof.
  intros Hd.
  induction u; cbn [NilEmpty.string_of_uint free_of]; [done|..];
    rewrite digit_not_delim by done; done.
Qed.

Lemma to_uint_not_Nil n : N.to_uint n <> Decimal.Nil.
Proof. destruct n; [done | apply DecimalPos.Unsigned.to_uint_nonnil]. Qed.

Lemma fmt_lu_free d n : is_digit d = false -> free_of d (fmt_lu n) = true.
Proof.
  intros Hd. unfold fmt_lu, NilZero.string_of_uint.
  pose proof (string_of_uint_free d (N.to_uint (Z.to_N n)) Hd).
  pose proof (to_uint_not_Nil (Z.to_N n)).
  by destruct (N.to_uint (Z.to_N n)).
Qed.

Lemma fmt_lu_not_empty n : fmt_lu n <> EmptyString.
Proof.
  unfold fmt_lu, NilZero.string_of_uint.
  pose proof (to_uint_not_Nil (Z.to_N n)).
  by destruct (N.to_uint (Z.to_N n)).
Qed.

Lemma fmt_lu_text_safe n : text_safe (fmt_lu n).
Proof. split; [by apply fmt_lu_free | apply fmt_lu_not_empty]. Qed.

Lemma parse_fmt_lu n :
  Reference.parse_decimal (fmt_lu n) = Some (Z.to_N n).
Proof.
  unfold Reference.parse_decimal, fmt_lu.
  rewrite NilZero.usu by apply to_uint_not_Nil.
  by rewrite DecimalN.Unsigned.of_to.
Qed.

End DecimalFacts.
Import DecimalFacts.

(** ** The reference collaborators meet the contracts *)

Module ReferenceFacts.
Import Reference.

Lemma dearmor_armor s : dearmor (armor s) = Some s.
Proof.
  unfold dearmor, armor. rewrite parse_fmt_lu. simpl.
  apply decode_encode.
Qed.

Lemma armor_text_safe s : text_safe (armor s).
Proof. apply fmt_lu_text_safe. Qed.

Lemma armor_one_line s : tokens LF (armor s) = [armor s].
Proof.
  apply tokens_free; [by apply fmt_lu_free | apply fmt_lu_not_empty].
Qed.

Lemma ref_strToInt_not_numeric t :
  numeric t = false -> @strToInt collaborators (Some t) = 0.
Proof. intros Ht. simpl. by rewrite Ht. Qed.

Lemma ref_strToULong_decimal n :
  0 <= n < ULONG_MODULUS -> @strToULong collaborators (Some (fmt_lu n)) = n.
Proof.
  intros Hn. simpl. rewrite parse_fmt_lu.
  unfold to_ulong. rewrite Z2N.id by lia. by apply Z.mod_small.
Qed.

Lemma ref_versionLine_NULL :
  @versionLineToSimpleVersion collaborators None = None.
Proof. done. Qed.

Lemma ref_versionAtLeast_NULL m :
  @versionAtLeast collaborators None m = false.
Proof. done. Qed.

Lemma ref_split_lines s :
  @delimitedStringToList collaborators (Some s) LF = tokens LF s.
Proof. done. Qed.

Lemma ref_crypt_lines t p :
  tokens LF (armor t +:+ String LF (armor p)) = [armor t; armor p].
Proof. by rewrite tokens_app, !armor_one_line. Qed.

Lemma ref_crypt_roundtrip text pw (w : @world collaborators) :
  exists blob,
    (@crypt_encrypt collaborators (Some text) (Some pw) w).1 = Ok blob /\
    tokens LF blob <> [] /\
    forall more,
      @crypt_decryptFromList collaborators (tokens LF blob ++ more) (Some pw)
      = Ok text.
Proof.
  eexists. split; [reflexivity|]. rewrite ref_crypt_lines.
  split; [done|]. intros more. simpl.
  rewrite bool_decide_eq_true_2 by done. by rewrite dearmor_armor.
Qed.

Lemma ref_crypt_reports t p (w : @world collaborators) e :
  (@crypt_encrypt collaborators t p w).1 = Err e -> e <> OIDC_SUCCESS.
Proof. simpl. destruct t, p; simpl; by intros [= <-]. Qed.

Lemma ref_key_roundtrip msg k (w : @world collaborators) e :
  encrypted_base64 (@crypt_encryptWithKey collaborators msg k w).1 = Some e ->
  exists n,
    nonce_base64 (@crypt_encryptWithKey collaborators msg k w).1 = Some n /\
    text_safe e /\ text_safe n /\
    @crypt_decryptWithKey collaborators
      (Some e, Some n, @newCryptParameters collaborators)
      (size_add (strlen msg) (@mac_len collaborators newCryptParameters)) k
    = Ok msg.
Proof.
  simpl. intros [= <-]. eexists. split; [reflexivity|].
  split; [apply armor_text_safe|]. split; [apply fmt_lu_text_safe|].
  rewrite bool_decide_eq_true_2 by done. rewrite dearmor_armor.
  by rewrite bool_decide_eq_true_2.
Qed.

End ReferenceFacts.

(** C2 on the reference collaborators: an envelope of version 4.1.0 goes to
    the current decoder, a single line has no marker. *)
Lemma version_dispatch_witness :
  let C := Reference.collaborators in
  let st := Reference.start [] (fun _ => Reference.blank) in
  let lines := ["1578072040808"; "20019056"; "Generated using version 4.1.0"] in
  @versionLineToSimpleVersion C None = None /\
  (forall m, @versionAtLeast C None m = false) /\
  @version_marker C lines = Some "4.1.0" /\
  @versionAtLeast C (Some "4.1.0") (Some (@MIN_BASE64_VERSION C)) = true /\
  @decryptLinesList C lines (Some "pw1") st
  = @do_crypt_decryptFromList C lines (Some "pw1") st /\
  @version_marker C ["5:c2FsdA==:bm9uY2U=:Y2lwaGVy"] = None.
Proof.
  cbv zeta.
  pose proof (@version_dispatch Reference.collaborators
                ReferenceFacts.ref_versionLine_NULL
                ReferenceFacts.ref_versionAtLeast_NULL) as D.
  split; [exact ReferenceFacts.ref_versionLine_NULL|].
  split; [exact ReferenceFacts.ref_versionAtLeast_NULL|].
  split; [reflexivity|]. split; [reflexivity|]. split.
  - apply (proj1 (D ["1578072040808"; "20019056";
                     "Generated using version 4.1.0"]
                    "c" "p" (Some "pw1") None
                    (Reference.start [] (fun _ => Reference.blank)))
             "4.1.0"); reflexivity.
  - apply (proj1 (proj2 (proj2 (proj2
             (D ["5:c2FsdA==:bm9uY2U=:Y2lwaGVy"] "c" "p" None None
                (Reference.start [] (fun _ => Reference.blank))))))).
    simpl. lia.
Defined.

(** ** The envelope with a version line: round trip *)

Section EnvelopeRoundTrip.
Context `{Collaborators}.

(** [delimitedStringToList] cuts at the delimiter and keeps the pieces that
    are not empty. *)
Hypothesis split_lines :
  forall s, delimitedStringToList (Some s) LF = tokens LF s.

(** The version line of the running version is one line, and reading it
    back gives a version at or above the threshold. *)
Hypothesis version_line_one_line :
  exists vl, simpleVersionToVersionLine (Some VERSION) = Some vl /\
             free_of LF vl = true /\ vl <> EmptyString.
Hypothesis running_version_current :
  versionAtLeast
    (versionLineToSimpleVersion (simpleVersionToVersionLine (Some VERSION)))
    (Some MIN_BASE64_VERSION) = true.

(** The password primitive: encryption of a text under a password gives a
    blob with at least one line, and decryption from the lines of the blob,
    whatever lines follow them, gives the text back. *)
Hypothesis crypt_roundtrip :
  forall text pw w,
    exists blob,
      (crypt_encrypt (Some text) (Some pw) w).1 = Ok blob /\
      tokens LF blob <> [] /\
      forall more,
        crypt_decryptFromList (tokens LF blob ++ more) (Some pw) = Ok text.

Lemma version_line_of_snoc (ls : list string) l :
  ls <> [] -> version_line_of (ls ++ [l]) = Some l.
Proof.
  intros Hls. unfold version_line_of, list_at. simpl.
  rewrite rev_app_distr. simpl.
  rewrite (proj2 (Z.ltb_lt _ _)); [done|].
  rewrite length_app. simpl. destruct ls; [done|]. simpl. lia.
Qed.

(** C1. Whatever the text [P], the password [W] and the state of the
    outside, [encryptWithVersionLine] returns an envelope, and
    [decryptFileContent] on that envelope with [W] returns [P], in whatever
    state it is called. *)
Theorem envelope_roundtrip (P W : string) st st' :
  exists envelope,
    (encryptWithVersionLine (Some P) (Some W) st).1 = Some envelope /\
    (decryptFileContent (Some envelope) (Some W) st').1 = Some P.
Proof.
  destruct (crypt_roundtrip P W (outside st)) as (blob & Henc & Hne & Hdec).
  destruct version_line_one_line as (vl & Hvl & Hfree & Hvne).
  exists (blob +:+ String LF vl). split.
  - unfold encryptWithVersionLine, encryptText, do_crypt_encrypt, with_world,
      mbind, M_bind, log. simpl.
    destruct (crypt_encrypt (Some P) (Some W) (outside st)) as [o w].
    simpl in Henc. subst o. simpl. by rewrite Hvl.
  - unfold decryptFileContent. rewrite split_lines, tokens_app.
    rewrite (tokens_free _ _ Hfree Hvne).
    unfold decryptLinesList. rewrite version_line_of_snoc by done.
    rewrite <- Hvl, running_version_current.
    unfold do_crypt_decryptFromList, mbind, M_bind, log. simpl.
    by rewrite Hdec.
Qed.

End EnvelopeRoundTrip.

(** C1 on the reference collaborators. *)
Lemma envelope_roundtrip_witness :
  let C := Reference.collaborators in
  let st := Reference.start [] (fun _ => Reference.blank) in
  (forall s, @delimitedStringToList C (Some s) LF = tokens LF s) /\
  exists envelope,
    (@encryptWithVersionLine C (Some "hello") (Some "pw1") st).1
    = Some envelope /\
    (@decryptFileContent C (Some envelope) (Some "pw1") st).1 = Some "hello".
Proof.
  cbv zeta. split; [exact ReferenceFacts.ref_split_lines|].
  apply (@envelope_roundtrip Reference.collaborators
           ReferenceFacts.ref_split_lines).
  - eexists. split; [reflexivity|]. split; [reflexivity | done].
  - reflexivity.
  - exact ReferenceFacts.ref_crypt_roundtrip.
Defined.

(** ** The IPC envelope: round trip *)

Section IpcRoundTrip.
Context `{Collaborators}.

(** [strToULong] reads back what [%lu] printed. *)
Hypothesis strToULong_decimal :
  forall n, 0 <= n < ULONG_MODULUS -> strToULong (Some (fmt_lu n)) = n.

(** The key primitive: when it gives a ciphertext it gives a nonce, both
    are base64 text, and decryption of the two under the same key with the
    size of the message plus the tag gives the message back. *)
Hypothesis key_roundtrip :
  forall msg k w e,
    encrypted_base64 (crypt_encryptWithKey msg k w).1 = Some e ->
    exists n,
      nonce_base64 (crypt_encryptWithKey msg k w).1 = Some n /\
      text_safe e /\ text_safe n /\
      crypt_decryptWithKey (Some e, Some n, newCryptParameters)
        (size_add (strlen msg) (mac_len newCryptParameters)) k = Ok msg.

Lemma ipc_fields (len n e : string) :
  text_safe len -> text_safe n -> text_safe e ->
  fields (len +:+ String COLON (n +:+ String COLON e)) = [len; n; e].
Proof.
  intros [Hl1 Hl2] [Hn1 Hn2] [He1 He2]. unfold fields.
  rewrite !tokens_app. by rewrite !tokens_free.
Qed.

(** What [encryptForIpc] returns, from what the primitive gave. *)
Lemma encryptForIpc_result msg k st :
  (encryptForIpc msg k st).1
  = let c := (crypt_encryptWithKey msg k (outside st)).1 in
    match encrypted_base64 c with
    | None => None
    | Some e =>
        Some (fmt_lu (strlen msg) +:+
              String COLON (fmt_s (nonce_base64 c) +:+ String COLON e))
    end.
Proof.
  unfold encryptForIpc, do_crypt_encryptWithKey, with_world, mbind, M_bind,
    log. simpl.
  destruct (crypt_encryptWithKey msg k (outside st)) as [c w]. simpl.
  by destruct (encrypted_base64 c).
Qed.

(** C8. For every message [M] whose length is a [size_t] (the empty one
    and long ones included) and every key [K]: when the primitive gives a
    ciphertext, [encryptForIpc] returns the envelope
    [<strlen M>:<nonce_base64>:<encrypted_base64>], and [decryptForIpc] on
    that envelope with [K] returns [M], in whatever state it is called. *)
Theorem ipc_roundtrip (M : string) (K : key) st st' e :
  strlen M < ULONG_MODULUS ->
  encrypted_base64 (crypt_encryptWithKey M K (outside st)).1 = Some e ->
  exists n envelope,
    nonce_base64 (crypt_encryptWithKey M K (outside st)).1 = Some n /\
    (encryptForIpc M K st).1 = Some envelope /\
    envelope = fmt_lu (strlen M) +:+ String COLON (n +:+ String COLON e) /\
    (decryptForIpc (Some envelope) K st').1 = Some M.
Proof.
  intros Hlen He.
  destruct (key_roundtrip M K (outside st) e He) as (n & Hn & Hse & Hsn & Hdec).
  exists n, (fmt_lu (strlen M) +:+ String COLON (n +:+ String COLON e)).
  split; [done|]. split; [|split; [done|]].
  - rewrite encryptForIpc_result. cbv zeta. by rewrite He, Hn.
  - rewrite decryptForIpc_fields.
    rewrite (ipc_fields _ _ _ (fmt_lu_text_safe _) Hsn Hse). simpl.
    rewrite strToULong_decimal by (unfold strlen in *; lia).
    unfold do_crypt_decryptWithKey, mbind, M_bind, log. simpl.
    by rewrite Hdec.
Qed.

(** Without a ciphertext from the primitive there is no envelope. *)
Lemma encryptForIpc_failure msg k st :
  encrypted_base64 (crypt_encryptWithKey msg k (outside st)).1 = None ->
  (encryptForIpc msg k st).1 = None.
Proof. intros He. rewrite encryptForIpc_result. cbv zeta. by rewrite He. Qed.

End IpcRoundTrip.

(** C8 on the reference collaborators, for the empty message. *)
Lemma ipc_roundtrip_witness :
  let C := Reference.collaborators in
  let st := Reference.start [] (fun _ => Reference.blank) in
  strlen EmptyString < ULONG_MODULUS /\
  exists n envelope,
    nonce_base64
      (@crypt_encryptWithKey C EmptyString [] (@outside C st)).1 = Some n /\
    (@encryptForIpc C EmptyString [] st).1 = Some envelope /\
    envelope = fmt_lu (strlen EmptyString) +:+
               String COLON (n +:+
               String COLON (Reference.armor EmptyString)) /\
    (@decryptForIpc C (Some envelope) [] st).1 = Some EmptyString.
Proof.
  cbv zeta. split; [reflexivity|].
  apply (@ipc_roundtrip Reference.collaborators
           ReferenceFacts.ref_strToULong_decimal
           ReferenceFacts.ref_key_roundtrip).
  - reflexivity.
  - reflexivity.
Defined.

(** ** The password retry loop *)

Section RetryLoop.
Context `{Collaborators}.

(** One decoding makes at most one call, to a decryption primitive. *)
Lemma decryptHexFileContent_calls cipher password st :
  exists new,
    calls_since st (decryptHexFileContent cipher password st).2 new /\
    count is_prompt new = 0%nat /\ count is_perror new = 0%nat /\
    (count is_decrypt new <= 1)%nat.
Proof.
  unfold decryptHexFileContent.
  destruct (strtok cipher COLON None) as [t0 s0].
  destruct (strtok None COLON s0) as [t1 s1].
  destruct (strtok None COLON s1) as [t2 s2].
  destruct (strtok None COLON s2) as [t3 s3].
  destruct (_ || _).
  - exists []. split; [|split; [done|split; [done|unfold count; simpl; lia]]].
    unfold calls_since. simpl. by rewrite app_nil_r.
  - eexists [_]. split.
    { unfold calls_since, do_crypt_decrypt_hex, mbind, M_bind, log. simpl.
      by destruct (crypt_decrypt_hex _ _ _ _ _). }
    split; [done|split; [done|unfold count; simpl; lia]].
Qed.

Lemma decryptLinesList_calls lines password st :
  exists new,
    calls_since st (decryptLinesList lines password st).2 new /\
    count is_prompt new = 0%nat /\ count is_perror new = 0%nat /\
    (count is_decrypt new <= 1)%nat.
Proof.
  unfold decryptLinesList. destruct (versionAtLeast _ _).
  - eexists [_]. split.
    { unfold calls_since, do_crypt_decryptFromList, mbind, M_bind, log.
      simpl. by destruct (crypt_decryptFromList _ _). }
    split; [done|split; [done|unfold count; simpl; lia]].
  - apply decryptHexFileContent_calls.
Qed.

Lemma do_promptPassword_calls msg st :
  calls_since st (do_promptPassword msg st).2 [Call_promptPassword msg].
Proof.
  unfold calls_since, do_promptPassword, with_world, mbind, M_bind, log.
  simpl. by destruct (promptPassword msg (outside st)).
Qed.

Lemma oidc_perror_calls st :
  calls_since st (oidc_perror st).2 [Call_oidc_perror (oidc_errno st)].
Proof. done. Qed.

(** The loop does nothing once there is a result. *)
Lemma decryptFile_loop_done tries lines p st :
  decryptFile_loop tries lines (Some p) st = (Some p, st).
Proof. by destruct tries. Qed.

(** One round: prompt, decode, and either return the plaintext at once or
    report the error and go on with one try less. *)
Lemma decryptFile_loop_step tries lines st :
  decryptFile_loop (S tries) lines None st
  = let p := do_promptPassword "Enter decryption Password: " st in
    let r := decryptLinesList lines p.1 p.2 in
    match r.1 with
    | Some _ => r
    | None => decryptFile_loop tries lines None (oidc_perror r.2).2
    end.
Proof.
  cbn [decryptFile_loop]. unfold mbind, M_bind. cbv zeta.
  destruct (do_promptPassword _ st) as [pw st1]. simpl.
  destruct (decryptLinesList lines pw st1) as [[x|] st2]; simpl.
  - apply decryptFile_loop_done.
  - done.
Qed.

Lemma decryptFile_loop_calls tries lines st :
  let r := decryptFile_loop tries lines None st in
  exists new,
    calls_since st r.2 new /\
    (count is_prompt new <= tries)%nat /\
    (r.1 = None ->
     count is_prompt new = tries /\ count is_perror new = tries) /\
    (is_Some r.1 -> count is_prompt new = S (count is_perror new)) /\
    (count is_decrypt new <= count is_prompt new)%nat.
Proof.
  cbv zeta. revert st. induction tries as [|tries IH]; intros st.
  - exists []. split; [apply calls_since_refl|]. unfold count. simpl.
    split; [lia|]. split; [done|]. split; [|lia].
    by intros [x Hx].
  - rewrite decryptFile_loop_step. cbv zeta.
    pose proof (do_promptPassword_calls "Enter decryption Password: " st)
      as Hp.
    destruct (do_promptPassword _ st) as [pw st1]. simpl in *.
    destruct (decryptLinesList_calls lines pw st1)
      as (new1 & Hc1 & Hp1 & He1 & Hd1).
    destruct (decryptLinesList lines pw st1) as [[x|] st2]; simpl in *.
    + exists ([Call_promptPassword "Enter decryption Password: "] ++ new1).
      split; [by eapply calls_since_trans|].
      rewrite !count_app, Hp1, He1. unfold count in *. simpl.
      split; [lia|]. split; [done|]. split; [done | lia].
    + destruct (IH (oidc_perror st2).2) as (new2 & Hc2 & Hp2 & Hn2 & Hs2 & Hd2).
      exists ([Call_promptPassword "Enter decryption Password: "] ++ new1
              ++ [Call_oidc_perror (oidc_errno st2)] ++ new2).
      split.
      { eapply calls_since_trans; [exact Hp|].
        eapply calls_since_trans; [exact Hc1|].
        eapply calls_since_trans; [apply oidc_perror_calls | exact Hc2]. }
      rewrite !count_app, Hp1, He1. unfold count in *. simpl.
      split; [lia|]. split; [|split; [|lia]].
      * intros Hr. destruct (Hn2 Hr). lia.
      * intros Hr. specialize (Hs2 Hr). lia.
Qed.

(** The loop of [decryptFile] makes the prompted attempts of the
    specification. *)
Lemma decryptFile_loop_run tries lines st :
  exists tried,
    prompted_run lines tries st tried
      (decryptFile_loop tries lines None st).1
      (decryptFile_loop tries lines None st).2.
Proof.
  revert st. induction tries as [|tries IH]; intros st.
  - exists []. apply run_exhausted.
  - rewrite decryptFile_loop_step. cbv zeta.
    destruct (decryptLinesList lines
                (do_promptPassword "Enter decryption Password: " st).1
                (do_promptPassword "Enter decryption Password: " st).2)
      as [[plain|] st2] eqn:Hdec; simpl.
    + eexists. apply run_success. unfold attempt. cbv zeta.
      by rewrite Hdec.
    + destruct (IH (oidc_perror st2).2) as [tried Hrun].
      eexists. eapply run_retry; [|exact Hrun].
      unfold attempt. cbv zeta. by rewrite Hdec.
Qed.

(** What a run of prompted attempts amounts to. *)
Lemma prompted_run_facts lines n st tried ret st' :
  prompted_run lines n st tried ret st' ->
  (length tried <= n)%nat /\
  (ret = None -> length tried = n /\ Forall failed_attempt tried) /\
  (forall plain, ret = Some plain ->
     exists before pw,
       tried = before ++ [(pw, Some plain)] /\
       Forall failed_attempt before).
Proof.
  induction 1 as [st | n st pw plain st' Hatt
                 | n st pw st1 tried ret st' Hatt Hrun IH].
  - split; [done|]. split; [done|]. by intros plain.
  - split; [simpl; lia|]. split; [done|].
    intros plain' [= <-]. by exists [], pw.
  - destruct IH as (Hlen & Hnone & Hsome).
    split; [simpl; lia|]. split.
    + intros Hret. destruct (Hnone Hret) as [Hl Hf].
      split; [simpl; lia|]. by constructor.
    + intros plain Hret.
      destruct (Hsome plain Hret) as (before & pw' & -> & Hf).
      exists ((pw, None) :: before), pw'. split; [done|]. by constructor.
Qed.

(** Each attempt of a run is one prompt in the log of calls. *)
Lemma prompted_run_prompts lines n st tried ret st' :
  prompted_run lines n st tried ret st' ->
  exists new, calls_since st st' new /\ count is_prompt new = length tried.
Proof.
  assert (Hattempt : forall st0 pw res st1,
            attempt lines st0 = ((pw, res), st1) ->
            exists new, calls_since st0 st1 new /\
                        count is_prompt new = 1%nat).
  { intros st0 pw res st1. unfold attempt. cbv zeta. intros [= _ _ <-].
    pose proof (do_promptPassword_calls "Enter decryption Password: " st0)
      as Hp.
    destruct (decryptLinesList_calls lines
                (do_promptPassword "Enter decryption Password: " st0).1
                (do_promptPassword "Enter decryption Password: " st0).2)
      as (new1 & Hc1 & Hp1 & _).
    exists ([Call_promptPassword "Enter decryption Password: "] ++ new1).
    split; [by eapply calls_since_trans|].
    by rewrite count_app, Hp1. }
  induction 1 as [st | n st pw plain st' Hatt
                 | n st pw st1 tried ret st' Hatt Hrun IH].
  - exists []. split; [apply calls_since_refl | done].
  - destruct (Hattempt _ _ _ _ Hatt) as (new & Hc & Hp). by exists new.
  - destruct (Hattempt _ _ _ _ Hatt) as (new1 & Hc1 & Hp1).
    destruct IH as (new2 & Hc2 & Hp2).
    exists (new1 ++ [Call_oidc_perror (oidc_errno st1)] ++ new2). split.
    + eapply calls_since_trans; [exact Hc1|].
      eapply calls_since_trans; [apply oidc_perror_calls | exact Hc2].
    + rewrite !count_app, Hp1, Hp2. unfold count. simpl. lia.
Qed.

(** C4. [decryptFile] on a file that has a line.  With a password it makes
    one decoding of the lines of the file with it, whose result and effect
    are its own: no prompt, at most one call of a primitive.  Without a
    password it makes the prompted attempts [tried], each a prompt followed
    by the decoding of the lines with the password typed: at most
    [MAX_PASS_TRIES] of them; it returns [NULL] only after exactly
    [MAX_PASS_TRIES] attempts that all failed and were reported; and when
    it returns a plaintext, that is what the last attempt decoded, all
    attempts before it failed and were reported, and nothing comes after
    it.  The prompts in the log are those of the attempts, and there is at
    most one call of a decryption primitive per prompt. *)
Theorem decryptFile_attempts filepath password st :
  let r := decryptFile filepath password st in
  let lines := getLinesFromFile filepath (outside st) in
  lines <> [] ->
  (forall p, password = Some p ->
     r = decryptLinesList lines (Some p) st /\
     exists new, calls_since st r.2 new /\ count is_prompt new = 0%nat /\
                 (count is_decrypt new <= 1)%nat) /\
  (password = None ->
     exists tried new,
       prompted_run lines MAX_PASS_TRIES st tried r.1 r.2 /\
       (length tried <= MAX_PASS_TRIES)%nat /\
       (r.1 = None ->
        length tried = MAX_PASS_TRIES /\ Forall failed_attempt tried) /\
       (forall plain, r.1 = Some plain ->
          exists before pw,
            tried = before ++ [(pw, Some plain)] /\
            Forall failed_attempt before) /\
       calls_since st r.2 new /\
       count is_prompt new = length tried /\
       (r.1 = None -> count is_perror new = MAX_PASS_TRIES) /\
       (is_Some r.1 -> count is_prompt new = S (count is_perror new)) /\
       (count is_decrypt new <= count is_prompt new)%nat).
Proof.
  cbv zeta. intros _. split.
  - intros p ->. split; [done|].
    destruct (decryptLinesList_calls
                (getLinesFromFile filepath (outside st)) (Some p) st)
      as (new & Hc & Hp & _ & Hd).
    by exists new.
  - intros ->.
    change (decryptFile filepath None st)
      with (decryptFile_loop MAX_PASS_TRIES
              (getLinesFromFile filepath (outside st)) None st).
    set (lines := getLinesFromFile filepath (outside st)).
    destruct (decryptFile_loop_run MAX_PASS_TRIES lines st) as [tried Hrun].
    destruct (prompted_run_facts _ _ _ _ _ _ Hrun) as (Hlen & Hnone & Hsome).
    destruct (prompted_run_prompts _ _ _ _ _ _ Hrun) as (new' & Hc' & Hp').
    destruct (decryptFile_loop_calls MAX_PASS_TRIES lines st)
      as (new & Hc & _ & Hn & Hs & Hd).
    assert (new' = new) as ->.
    { unfold calls_since in *. rewrite Hc in Hc'.
      by apply app_inv_head in Hc'. }
    exists tried, new. split; [done|]. split; [done|]. split; [done|].
    split; [done|]. split; [done|]. split; [done|].
    split; [|done]. intros Hr. by destruct (Hn Hr).
Qed.

End RetryLoop.

(** C4 on the reference collaborators: a user who types three wrong
    passwords. *)
Lemma decryptFile_attempts_witness :
  let C := Reference.collaborators in
  let st := Reference.start [Some "a"; Some "b"; Some "c"; Some "pw1"]
              (fun _ => Reference.blank) in
  let file := Some (Reference.armor "hello" +:+
                    String LF (Reference.armor "pw1" +:+
                    String LF "Generated using version 4.1.0")) in
  @getLinesFromFile C file (@outside C st) <> [] /\
  (@decryptFile C file None st).1 = None /\
  exists tried new,
    @prompted_run C (@getLinesFromFile C file (@outside C st))
      (@MAX_PASS_TRIES C) st tried None (@decryptFile C file None st).2 /\
    length tried = @MAX_PASS_TRIES C /\
    Forall failed_attempt tried /\
    @calls_since C st (@decryptFile C file None st).2 new /\
    @count C is_prompt new = length tried /\
    @count C is_perror new = @MAX_PASS_TRIES C.
Proof.
  cbv zeta.
  assert (Hlines : @getLinesFromFile Reference.collaborators
                     (Some (Reference.armor "hello" +:+
                            String LF (Reference.armor "pw1" +:+
                            String LF "Generated using version 4.1.0")))
                     (@outside Reference.collaborators
                        (Reference.start
                           [Some "a"; Some "b"; Some "c"; Some "pw1"]
                           (fun _ => Reference.blank))) <> [])
    by (vm_compute; discriminate).
  split; [exact Hlines|]. split; [vm_compute; reflexivity|].
  destruct (proj2 (@decryptFile_attempts Reference.collaborators
              (Some (Reference.armor "hello" +:+
                     String LF (Reference.armor "pw1" +:+
                     String LF "Generated using version 4.1.0")))
              None
              (Reference.start [Some "a"; Some "b"; Some "c"; Some "pw1"]
                 (fun _ => Reference.blank)) Hlines) eq_refl)
    as (tried & new & Hrun & _ & Hnone & _ & Hc & Hp & He & _).
  assert (Hret : (@decryptFile Reference.collaborators
                    (Some (Reference.armor "hello" +:+
                           String LF (Reference.armor "pw1" +:+
                           String LF "Generated using version 4.1.0")))
                    None
                    (Reference.start
                       [Some "a"; Some "b"; Some "c"; Some "pw1"]
                       (fun _ => Reference.blank))).1 = None)
    by (vm_compute; reflexivity).
  exists tried, new. destruct (Hnone Hret) as [Hl Hf].
  split; [by rewrite <- Hret|]. split; [exact Hl|]. split; [exact Hf|].
  split; [exact Hc|]. split; [exact Hp | exact (He Hret)].
Defined.

(** ** Accounts in memory *)

Section AccountFacts.
Context `{Collaborators}.

Lemma get_set_same f v a : get_field f (set_field f v a) = v.
Proof. by destruct f. Qed.

Lemma get_set_other f g v a :
  f <> g -> get_field g (set_field f v a) = get_field g a.
Proof. by destruct f, g. Qed.

Lemma identity_set f v a : acc_identity (set_field f v a) = acc_identity a.
Proof. by destruct f. Qed.

(** A store to one field of one account leaves every other field of every
    account as it was. *)
Lemma store_other (m : loc -> oidc_account) a f v a' f' :
  (a', f') <> (a, f) ->
  get_field f' ((<[a := set_field f v (m a)]> m) a') = get_field f' (m a').
Proof.
  intros Hne. destruct (decide (a = a')) as [<-|Ha].
  - rewrite fn_lookup_insert. apply get_set_other. congruence.
  - by rewrite fn_lookup_insert_ne.
Qed.

Lemma store_same (m : loc -> oidc_account) a f v :
  get_field f ((<[a := set_field f v (m a)]> m) a) = v.
Proof. by rewrite fn_lookup_insert, get_set_same. Qed.

Lemma store_identity (m : loc -> oidc_account) a f v a' :
  acc_identity ((<[a := set_field f v (m a)]> m) a') = acc_identity (m a').
Proof.
  destruct (decide (a = a')) as [<-|Ha].
  - by rewrite fn_lookup_insert, identity_set.
  - by rewrite fn_lookup_insert_ne.
Qed.

End AccountFacts.

(** ** The lock layer *)

Section LockLayer.
Context `{Collaborators}.

(** One round of the loop over the work list. *)
Lemma encrypt_items_step a f items pw st :
  encrypt_items ((a, f) :: items) pw st
  = let text := get_field f (memory st a) in
    let o := crypt_encrypt text pw (outside st) in
    let log' := calls st ++ [Call_crypt_encrypt text pw] in
    match o.1 with
    | Ok c =>
        encrypt_items items pw
          (mk_state (oidc_errno st) log' o.2
             (<[a := set_field f (Some c) (memory st a)]> (memory st)))
    | Err e => (e, mk_state e log' o.2 (memory st))
    end.
Proof.
  cbn [encrypt_items]. run_M. simpl.
  destruct (crypt_encrypt _ pw (outside st)) as [[c|e] w]; simpl;
    reflexivity.
Qed.

(** [lockEncrypt] is the loop over its work list. *)
Lemma lockEncrypt_items loaded pw st :
  lockEncrypt loaded pw st = encrypt_items (lock_items loaded) pw st.
Proof.
  unfold lockEncrypt. revert st.
  induction loaded as [|acc loaded IH]; intros st; [done|].
  change (lock_items (acc :: loaded))
    with ((acc, AccessToken) :: (acc, RefreshToken) :: (acc, ClientId)
          :: (acc, ClientSecret) :: lock_items loaded).
  cbn [lockEncrypt_nodes encrypt_items]. run_M.
  cbn beta iota delta [fst snd oidc_errno calls outside memory].
  repeat (match goal with
          | |- context [crypt_encrypt ?t ?p ?w] =>
              destruct (crypt_encrypt t p w) as [[?|?] ?]
          end;
          cbn beta iota delta [fst snd oidc_errno calls outside memory];
          [|reflexivity]).
  apply IH.
Qed.

Lemma lock_items_elem loaded a f :
  (a, f) ∈ lock_items loaded <-> a ∈ loaded.
Proof.
  unfold lock_items. rewrite list_elem_of_In, in_flat_map. split.
  - intros (x & Hx & Hin). apply list_elem_of_In.
    apply in_map_iff in Hin as (g & [= -> _] & _). done.
  - intros Ha. exists a. split; [by apply list_elem_of_In|].
    apply in_map. destruct f; simpl; auto.
Qed.

Lemma lock_items_NoDup loaded : NoDup loaded -> NoDup (lock_items loaded).
Proof.
  induction 1 as [|a l Ha Hl IH]; [constructor|].
  change (lock_items (a :: l))
    with (map (pair a) all_fields ++ lock_items l).
  apply NoDup_app. split; [|split; [|done]].
  - apply (NoDup_fmap_2 (pair a)).
    unfold all_fields. by apply (bool_decide_unpack _).
  - intros [a' f'] Hin Hin'. apply lock_items_elem in Hin'.
    apply list_elem_of_In, in_map_iff in Hin as (g & [= <- _] & _). done.
Qed.

(** How far the loop gets: the items before the first one whose encryption
    fails hold their ciphertext, everything else is as before. *)
Lemma encrypt_items_run items pw st :
  NoDup items ->
  let r := encrypt_items items pw st in
  exists done rest,
    items = done ++ rest /\
    (forall a f, (a, f) ∈ done ->
       exists c, get_field f (memory r.2 a) = Some c /\
                 encryption_of (get_field f (memory st a)) pw c) /\
    (forall a f, (a, f) ∉ done ->
       get_field f (memory r.2 a) = get_field f (memory st a)) /\
    (forall a, acc_identity (memory r.2 a) = acc_identity (memory st a)) /\
    (rest = [] /\ r.1 = OIDC_SUCCESS \/
     exists a f rest' e w,
       rest = (a, f) :: rest' /\
       (crypt_encrypt (get_field f (memory st a)) pw w).1 = Err e /\
       r.1 = e /\ oidc_errno r.2 = e).
Proof.
  cbv zeta. intros Hnd. revert st.
  induction Hnd as [|[a f] items Hnotin Hnd IH]; intros st.
  - exists [], []. repeat split; try done.
    + intros ?? Hin. by apply elem_of_nil in Hin.
    + by left.
  - rewrite encrypt_items_step. cbv zeta.
    destruct (crypt_encrypt (get_field f (memory st a)) pw (outside st))
      as [[c|e] w] eqn:Hcall; simpl.
    + match goal with
      | |- context [encrypt_items items pw ?s] =>
          destruct (IH s) as (dn & rest & Hitems & Hdone & Hkeep & Hid & Hend)
      end.
      simpl in *.
      assert (Hfresh : forall a' f', (a', f') ∈ items -> (a', f') <> (a, f))
        by (intros a' f' Hin [= -> ->]; done).
      assert (Hsub : forall x, x ∈ dn -> x ∈ items)
        by (intros x Hx; rewrite Hitems; apply elem_of_app; by left).
      exists ((a, f) :: dn), rest. split; [by rewrite Hitems|].
      split; [|split; [|split]].
      * intros a' f' Hin. apply elem_of_cons in Hin as [[= -> ->] | Hin].
        -- exists c. split.
           ++ rewrite Hkeep; [apply store_same|].
              intros Hin. by apply Hnotin, Hsub.
           ++ exists (outside st). by rewrite Hcall.
        -- destruct (Hdone a' f' Hin) as (c' & Hget & w' & Hw').
           exists c'. split; [done|]. exists w'.
           rewrite store_other in Hw'; [done|]. by apply Hfresh, Hsub.
      * intros a' f' Hout.
        rewrite Hkeep by (intros Hin; apply Hout, elem_of_cons; by right).
        apply store_other. intros Heq. apply Hout. rewrite Heq.
        apply elem_of_cons. by left.
      * intros a'. by rewrite Hid, store_identity.
      * destruct Hend as [[-> Hr] | (a2 & f2 & rest' & e & w' & -> & Hw' & Hr)].
        -- by left.
        -- right. exists a2, f2, rest', e, w'. split; [done|].
           rewrite store_other in Hw'; [done|].
           apply Hfresh. rewrite Hitems. apply elem_of_app. right.
           apply elem_of_cons. by left.
    + exists [], ((a, f) :: items). repeat split; try done.
      * intros ?? Hin. by apply elem_of_nil in Hin.
      * right. exists a, f, items, e, (outside st). by rewrite Hcall.
Qed.

End LockLayer.

(** ** The store of loaded accounts *)

Section Store.
Context `{Collaborators}.

(** The entry found only depends on the identities in memory. *)
Lemma matching_entry_ext st st' loaded key :
  (forall p, acc_identity (memory st' p) = acc_identity (memory st p)) ->
  matching_entry st' loaded key = matching_entry st loaded key.
Proof.
  intros Hid. unfold matching_entry, findInList. simpl.
  apply list_find_ext. intros p. by rewrite !Hid.
Qed.

Lemma matching_entry_Some st loaded key i p :
  matching_entry st loaded key = Some (i, p) <->
  loaded !! i = Some p /\
  acc_identity (memory st key) = acc_identity (memory st p) /\
  forall j q, loaded !! j = Some q -> (j < i)%nat ->
              acc_identity (memory st key) <> acc_identity (memory st q).
Proof.
  unfold matching_entry, findInList. simpl.
  apply (list_find_Some
           (fun q => acc_identity (memory st key) = acc_identity (memory st q))).
Qed.

Lemma matching_entry_None st loaded key :
  matching_entry st loaded key = None <->
  forall p, p ∈ loaded ->
            acc_identity (memory st key) <> acc_identity (memory st p).
Proof.
  unfold matching_entry, findInList. simpl.
  rewrite (list_find_None
             (fun q => acc_identity (memory st key)
                       = acc_identity (memory st q))).
  by rewrite Forall_forall.
Qed.

(** In a store with one entry per identity, the entry found for a key is
    the entry with the identity of the key. *)
Lemma matching_entry_unique st loaded key i p :
  unique_by_identity st loaded ->
  loaded !! i = Some p ->
  acc_identity (memory st p) = acc_identity (memory st key) ->
  matching_entry st loaded key = Some (i, p).
Proof.
  intros Hu Hi Hid. apply matching_entry_Some.
  split; [done|]. split; [done|]. intros j q Hj Hlt Heq.
  assert (j = i); [|lia].
  apply (NoDup_lookup _ _ _ (acc_identity (memory st q)) Hu).
  - unfold identities. by rewrite list_lookup_fmap, Hj.
  - unfold identities. rewrite list_lookup_fmap, Hi. simpl. congruence.
Qed.

Lemma unique_by_identity_NoDup st loaded :
  unique_by_identity st loaded -> NoDup loaded.
Proof. apply NoDup_fmap_1. Qed.

Lemma not_elem_of_delete {A : Type} (l : list A) i x :
  NoDup l -> l !! i = Some x -> x ∉ delete i l.
Proof.
  intros Hnd Hi Hin. apply list_elem_of_lookup in Hin as [j Hj].
  destruct (decide (j < i)%nat).
  - rewrite list_lookup_delete_lt in Hj by done.
    pose proof (NoDup_lookup _ _ _ _ Hnd Hi Hj). lia.
  - rewrite list_lookup_delete_ge in Hj by lia.
    pose proof (NoDup_lookup _ _ _ _ Hnd Hi Hj). lia.
Qed.

(** What [addAccountToList] does: the account is wrapped where it lies, the
    lookup runs on the memory that results, and the list is what the two
    tests on its outcome make of it. *)
Lemma addAccountToList_unfold loaded account st :
  let r := addAccountToList loaded account st in
  (forall p, memory r.2 p
             = if decide (p = account) then wrap_account (memory st account)
               else memory st p) /\
  oidc_errno r.2 = oidc_errno st /\ calls r.2 = calls st /\
  outside r.2 = outside st /\
  r.1 = match matching_entry r.2 loaded account with
        | Some (i, val) =>
            if bool_decide (val <> account)
            then delete i loaded ++ [account] else loaded
        | None => loaded ++ [account]
        end.
Proof.
  cbv zeta. unfold addAccountToList, matching_entry, list_remove, list_rpush.
  run_M. simpl.
  split; [|split; [done|split; [done|split; [done|]]]].
  - intros p. destruct (decide (p = account)) as [->|Hp].
    + rewrite !fn_lookup_insert. by destruct (memory st account).
    + by rewrite !fn_lookup_insert_ne.
  - destruct (list_find _ loaded) as [[i val]|]; [|done].
    by destruct (bool_decide (val <> account)).
Qed.

(** The memory layer does not touch identities. *)
Lemma addAccountToList_identity loaded account st p :
  acc_identity (memory (addAccountToList loaded account st).2 p)
  = acc_identity (memory st p).
Proof.
  destruct (addAccountToList_unfold loaded account st) as (Hm & _).
  rewrite Hm. by destruct (decide (p = account)) as [->|].
Qed.

(** The store keeps one entry per identity. *)
Lemma addAccountToList_unique loaded account st :
  unique_by_identity st loaded ->
  unique_by_identity (addAccountToList loaded account st).2
    (addAccountToList loaded account st).1.
Proof.
  intros Hu.
  destruct (addAccountToList_unfold loaded account st) as (_ & _ & _ & _ & Hr).
  pose proof (addAccountToList_identity loaded account st) as Hid.
  rewrite (matching_entry_ext st _ loaded account Hid) in Hr.
  set (ident := fun p => acc_identity (memory st p)).
  assert (Hids : forall l,
             identities (addAccountToList loaded account st).2 l
             = ident <$> l).
  { intros l. unfold identities. apply list_fmap_ext. intros ???.
    apply Hid. }
  unfold unique_by_identity in *. rewrite Hids.
  unfold identities in Hu. fold ident in Hu.
  destruct (matching_entry st loaded account) as [[i val]|] eqn:Hfind.
  - apply matching_entry_Some in Hfind as (Hi & Hsame & _).
    destruct (bool_decide (val <> account)); rewrite Hr; [|done].
    rewrite fmap_app, list_fmap_delete. apply NoDup_app.
    split; [|split].
    + eapply sublist_NoDup; [done | apply sublist_delete].
    + intros x Hx Hx'. apply list_elem_of_singleton in Hx' as ->.
      revert Hx. apply not_elem_of_delete; [done|].
      rewrite list_lookup_fmap, Hi. simpl. unfold ident. by rewrite Hsame.
    + apply NoDup_singleton.
  - rewrite Hr, fmap_app. apply NoDup_app. split; [done|]. split.
    + intros x Hx Hx'. apply list_elem_of_singleton in Hx' as ->.
      apply list_elem_of_fmap in Hx as (p & Hp & Hin).
      by apply (proj1 (matching_entry_None st loaded account) Hfind p Hin).
    + apply NoDup_singleton.
Qed.

(** What [getAccountFromList] does. *)
Lemma getAccountFromList_unfold loaded key st :
  let r := getAccountFromList loaded key st in
  r.1 = snd <$> matching_entry st loaded key /\
  (forall p, memory r.2 p
             = if decide (Some p = r.1) then unwrap_account (memory st p)
               else memory st p) /\
  oidc_errno r.2 = oidc_errno st /\ calls r.2 = calls st /\
  outside r.2 = outside st.
Proof.
  cbv zeta. unfold getAccountFromList, matching_entry. run_M. simpl.
  destruct (list_find _ loaded) as [[i account]|]; simpl.
  - split; [done|]. split; [|done]. intros p.
    destruct (decide (Some p = Some account)) as [[= ->]|Hp].
    + rewrite !fn_lookup_insert. by destruct (memory st account).
    + rewrite !fn_lookup_insert_ne by congruence. done.
  - split; [done|]. split; [|done]. intros p.
    by destruct (decide (Some p = None)).
Qed.

End Store.

(** ** The claims about the lock layer and the store *)

Section LockAndStore.
Context `{Collaborators}.

Lemma account_ext (a b : oidc_account) :
  acc_identity a = acc_identity b ->
  (forall f, get_field f a = get_field f b) -> a = b.
Proof.
  intros Hid Hf. destruct a, b. simpl in *.
  pose proof (Hf AccessToken). pose proof (Hf RefreshToken).
  pose proof (Hf ClientId). pose proof (Hf ClientSecret).
  simpl in *. congruence.
Qed.

(** C3, as the code has it.  In a store that holds each account once, when
    [lockEncrypt] does not return [OIDC_SUCCESS] it stopped at the first
    field whose encryption failed, [(a, f)] in the walk over the records in
    list order and over access token, refresh token, client id, client
    secret in each: its result is the error code of that encryption, which
    is also in [oidc_errno]; every field before [(a, f)] in the walk holds
    the ciphertext of its former value; [(a, f)], the fields after it and
    the accounts outside the store are as they were.  The store is left
    untouched exactly when no field comes before the failing one. *)
Theorem lockEncrypt_failure loaded password st :
  NoDup loaded ->
  let r := lockEncrypt loaded password st in
  r.1 <> OIDC_SUCCESS ->
  exists done a f rest,
    lock_items loaded = done ++ (a, f) :: rest /\
    (exists w,
       (crypt_encrypt (get_field f (memory st a)) password w).1 = Err r.1) /\
    oidc_errno r.2 = r.1 /\
    (forall a' f', (a', f') ∈ done ->
       exists c, get_field f' (memory r.2 a') = Some c /\
                 encryption_of (get_field f' (memory st a')) password c) /\
    (forall a' f', (a', f') ∉ done ->
       get_field f' (memory r.2 a') = get_field f' (memory st a')) /\
    (forall p, (forall f', (p, f') ∉ done) -> memory r.2 p = memory st p).
Proof.
  intros Hnd. cbv zeta. rewrite lockEncrypt_items. intros Hfail.
  destruct (encrypt_items_run (lock_items loaded) password st
              (lock_items_NoDup _ Hnd))
    as (dn & rest & Hitems & Hdone & Hkeep & Hid & Hend).
  destruct Hend as [[_ Hr] | (a & f & rest' & e & w & -> & Hw & Hr & He)];
    [done|].
  exists dn, a, f, rest'. split; [done|]. split; [|split; [|split; [|split]]].
  - exists w. by rewrite Hr.
  - by rewrite Hr.
  - done.
  - done.
  - intros p Hp. apply account_ext; [apply Hid|].
    intros f'. by apply Hkeep.
Qed.

(** The error codes of the primitive are error codes. *)
Hypothesis crypt_encrypt_reports :
  forall text pw w e, (crypt_encrypt text pw w).1 = Err e -> e <> OIDC_SUCCESS.

(** C6. [addAccountToList] and [getAccountFromList] leave the access token
    of every account as it is: the first replaces the account it is given
    by its wrapped form (refresh token, client id and client secret through
    [memoryEncrypt]), the second the account it returns by its unwrapped
    form, and neither changes any other account.  [lockEncrypt], when it
    succeeds on a store that holds each account once, has replaced each of
    the four fields of each account, the access token included, by a
    ciphertext of the value it held, whatever that value was. *)
Theorem field_scope loaded account key password st :
  (let r := addAccountToList loaded account st in
   (forall p, access_token (memory r.2 p) = access_token (memory st p)) /\
   memory r.2 account = wrap_account (memory st account) /\
   (forall p, p <> account -> memory r.2 p = memory st p)) /\
  (let r := getAccountFromList loaded key st in
   (forall p, access_token (memory r.2 p) = access_token (memory st p)) /\
   (forall p, r.1 = Some p -> memory r.2 p = unwrap_account (memory st p)) /\
   (forall p, r.1 <> Some p -> memory r.2 p = memory st p)) /\
  (let r := lockEncrypt loaded password st in
   NoDup loaded -> r.1 = OIDC_SUCCESS ->
   forall a f, a ∈ loaded ->
     exists c, get_field f (memory r.2 a) = Some c /\
               encryption_of (get_field f (memory st a)) password c).
Proof.
  cbv zeta. split; [|split].
  - destruct (addAccountToList_unfold loaded account st) as (Hm & _).
    split; [|split].
    + intros p. rewrite Hm. by destruct (decide (p = account)) as [->|].
    + by rewrite Hm, decide_True.
    + intros p Hp. by rewrite Hm, decide_False.
  - destruct (getAccountFromList_unfold loaded key st) as (_ & Hm & _).
    split; [|split].
    + intros p. rewrite Hm. by destruct (decide _).
    + intros p Hp. by rewrite Hm, decide_True.
    + intros p Hp. by rewrite Hm, decide_False.
  - rewrite lockEncrypt_items. intros Hnd Hok a f Ha.
    destruct (encrypt_items_run (lock_items loaded) password st
                (lock_items_NoDup _ Hnd))
      as (dn & rest & Hitems & Hdone & _ & _ & Hend).
    destruct Hend as [[-> _] | (a2 & f2 & rest' & e & w & _ & Hw & Hr & _)].
    + apply Hdone. rewrite app_nil_r in Hitems. rewrite <- Hitems.
      by apply lock_items_elem.
    + destruct (crypt_encrypt_reports _ _ _ _ Hw). congruence.
Qed.

(** C9. [addAccountToList] on a store with one entry per identity.  When
    the store holds another instance [old] with the identity of [account],
    the list that results is the old one without the node of [old] and with
    [account] at the tail: same length, [old] no longer in it.  When no
    entry has the identity of [account], it is the old list with [account]
    at the tail: one entry more.  In both cases the account is wrapped. *)
Theorem upsert loaded account st :
  unique_by_identity st loaded ->
  let r := addAccountToList loaded account st in
  (forall i old,
     loaded !! i = Some old -> old <> account ->
     acc_identity (memory st old) = acc_identity (memory st account) ->
     r.1 = delete i loaded ++ [account] /\
     length r.1 = length loaded /\ (old ∉ r.1) /\
     last r.1 = Some account) /\
  ((forall p, p ∈ loaded ->
      acc_identity (memory st p) <> acc_identity (memory st account)) ->
   r.1 = loaded ++ [account] /\
   length r.1 = S (length loaded) /\ last r.1 = Some account) /\
  memory r.2 account = wrap_account (memory st account).
Proof.
  intros Hu. cbv zeta.
  destruct (addAccountToList_unfold loaded account st) as (Hm & _ & _ & _ & Hr).
  rewrite (matching_entry_ext st _ loaded account
             (addAccountToList_identity loaded account st)) in Hr.
  split; [|split].
  - intros i old Hi Hne Hid.
    rewrite (matching_entry_unique st loaded account i old Hu Hi Hid) in Hr.
    rewrite bool_decide_eq_true_2 in Hr by done.
    rewrite Hr. split; [done|]. split; [|split].
    + rewrite length_app, length_delete by eauto. simpl.
      apply lookup_lt_Some in Hi. lia.
    + intros Hin. apply elem_of_app in Hin as [Hin | Hin].
      * by apply (not_elem_of_delete loaded i old
                    (unique_by_identity_NoDup _ _ Hu) Hi).
      * by apply list_elem_of_singleton in Hin.
    + by rewrite last_snoc.
  - intros Hnew.
    assert (matching_entry st loaded account = None) as Hnone.
    { apply matching_entry_None. intros p Hp Heq. by apply (Hnew p Hp). }
    rewrite Hnone in Hr. rewrite Hr. split; [done|].
    split; [|by rewrite last_snoc].
    rewrite length_app. simpl. lia.
  - by rewrite Hm, decide_True.
Qed.

(** C10. [addAccountToList] wraps the account whatever the store holds, and
    the lookup runs on the memory with the wrapped account.  When the entry
    found for [account] is [account] itself, the list is returned as it is,
    and [n] such calls in a row leave the list as it is and the account
    wrapped [n] times, the other accounts untouched. *)
Theorem upsert_same_instance loaded account st :
  (let r := addAccountToList loaded account st in
   memory r.2 account = wrap_account (memory st account) /\
   r.1 = match matching_entry r.2 loaded account with
         | Some (i, val) =>
             if bool_decide (val <> account)
             then delete i loaded ++ [account] else loaded
         | None => loaded ++ [account]
         end) /\
  (forall i, matching_entry st loaded account = Some (i, account) ->
   forall n,
     let r := addAccountToList_times n loaded account st in
     r.1 = loaded /\
     memory r.2 account = Nat.iter n wrap_account (memory st account) /\
     (forall p, p <> account -> memory r.2 p = memory st p)).
Proof.
  split.
  - cbv zeta.
    destruct (addAccountToList_unfold loaded account st) as (Hm & _ & _ & _ & Hr).
    split; [by rewrite Hm, decide_True | done].
  - intros i Hfound n. cbv zeta. revert st Hfound.
    induction n as [|n IH]; intros st Hfound; [done|].
    cbn [addAccountToList_times]. unfold mbind, M_bind.
    destruct (addAccountToList_unfold loaded account st)
      as (Hm & _ & _ & _ & Hr).
    pose proof (matching_entry_ext st _ loaded account
                  (addAccountToList_identity loaded account st)) as Hsame.
    destruct (addAccountToList loaded account st) as [l st1]. simpl in *.
    rewrite Hsame, Hfound in Hr.
    rewrite bool_decide_eq_false_2 in Hr by (intros Hne; by apply Hne).
    subst l. rewrite Hfound in Hsame.
    destruct (IH st1 Hsame) as (Hl & Hacc & Hother).
    split; [done|]. split.
    + rewrite Hacc, Hm, decide_True by done. symmetry.
      exact (Nat.iter_succ_r n wrap_account (memory st account)).
    + intros p Hp. by rewrite Hother, Hm, decide_False.
Qed.

End LockAndStore.

(** C3 as the specification states it fails: with an account that has no
    refresh token, the encryption of the refresh token fails and so does
    [lockEncrypt], after the access token was replaced by its ciphertext. *)
Lemma lockEncrypt_not_atomic :
  let C := Reference.collaborators in
  let st := Reference.start [] (Reference.mem_of [Reference.no_refresh]) in
  let r := @lockEncrypt C [0%nat] (Some "lock") st in
  (@crypt_encrypt C (refresh_token (@memory C st 0%nat)) (Some "lock")
     (@outside C st)).1 = Err OIDC_EARGNULLFUNC /\
  r.1 = OIDC_EARGNULLFUNC /\
  access_token (@memory C r.2 0%nat) <> access_token (@memory C st 0%nat).
Proof.
  cbv zeta. split; [reflexivity|]. split; [reflexivity|].
  vm_compute. discriminate.
Qed.

(** C3 as the code has it, on the same input. *)
Lemma lockEncrypt_failure_witness :
  let C := Reference.collaborators in
  let st := Reference.start [] (Reference.mem_of [Reference.no_refresh]) in
  let r := @lockEncrypt C [0%nat] (Some "lock") st in
  NoDup [0%nat] /\ r.1 <> OIDC_SUCCESS /\
  exists done a f rest,
    lock_items [0%nat] = done ++ (a, f) :: rest /\
    (exists w,
       (@crypt_encrypt C (get_field f (@memory C st a)) (Some "lock") w).1
       = Err r.1) /\
    @oidc_errno C r.2 = r.1 /\
    (forall a' f', (a', f') ∈ done ->
       exists c, get_field f' (@memory C r.2 a') = Some c /\
                 @encryption_of C (get_field f' (@memory C st a'))
                   (Some "lock") c) /\
    (forall a' f', (a', f') ∉ done ->
       get_field f' (@memory C r.2 a') = get_field f' (@memory C st a')) /\
    (forall p, (forall f', (p, f') ∉ done) ->
               @memory C r.2 p = @memory C st p).
Proof.
  cbv zeta.
  assert (Hnd : NoDup [0%nat]) by (apply (bool_decide_unpack _); reflexivity).
  assert (Hfail : (@lockEncrypt Reference.collaborators [0%nat] (Some "lock")
                     (Reference.start []
                        (Reference.mem_of [Reference.no_refresh]))).1
                  <> OIDC_SUCCESS) by (vm_compute; discriminate).
  split; [exact Hnd|]. split; [exact Hfail|].
  exact (@lockEncrypt_failure Reference.collaborators [0%nat] (Some "lock")
           (Reference.start [] (Reference.mem_of [Reference.no_refresh]))
           Hnd Hfail).
Defined.

(** C6 on the reference collaborators: locking a store of two accounts. *)
Lemma field_scope_witness :
  let C := Reference.collaborators in
  let st := Reference.start []
              (Reference.mem_of [Reference.work; Reference.home]) in
  let r := @lockEncrypt C [0%nat; 1%nat] (Some "lock") st in
  NoDup [0%nat; 1%nat] /\ r.1 = OIDC_SUCCESS /\
  (forall p, access_token
               (@memory C (@addAccountToList C [0%nat] 1%nat st).2 p)
             = access_token (@memory C st p)) /\
  exists c, access_token (@memory C r.2 1%nat) = Some c /\
            @encryption_of C (Some "at") (Some "lock") c.
Proof.
  cbv zeta.
  assert (Hnd : NoDup [0%nat; 1%nat])
    by (apply (bool_decide_unpack _); reflexivity).
  pose proof (@field_scope Reference.collaborators
                ReferenceFacts.ref_crypt_reports [0%nat; 1%nat] 1%nat 0%nat
                (Some "lock")
                (Reference.start []
                   (Reference.mem_of [Reference.work; Reference.home])))
    as (_ & _ & Hlock).
  pose proof (@field_scope Reference.collaborators
                ReferenceFacts.ref_crypt_reports [0%nat] 1%nat 0%nat
                (Some "lock")
                (Reference.start []
                   (Reference.mem_of [Reference.work; Reference.home])))
    as ((Hat & _) & _).
  split; [exact Hnd|]. split; [reflexivity|]. split; [exact Hat|].
  apply (Hlock Hnd eq_refl 1%nat AccessToken).
  apply list_elem_of_lookup. by exists 1%nat.
Defined.

(** C9 on the reference collaborators: the configuration [work] is loaded
    again while the store holds [work] and [home]. *)
Lemma upsert_witness :
  let C := Reference.collaborators in
  let st := Reference.start []
              (Reference.mem_of
                 [Reference.work; Reference.home; Reference.work_again]) in
  let r := @addAccountToList C [0%nat; 1%nat] 2%nat st in
  @unique_by_identity C st [0%nat; 1%nat] /\
  r.1 = [1%nat; 2%nat] /\ length r.1 = 2%nat /\ 0%nat ∉ r.1.
Proof.
  cbv zeta.
  assert (Hu : @unique_by_identity Reference.collaborators
                 (Reference.start []
                    (Reference.mem_of
                       [Reference.work; Reference.home;
                        Reference.work_again]))
                 [0%nat; 1%nat])
    by (apply (bool_decide_unpack _); reflexivity).
  destruct (proj1 (@upsert Reference.collaborators [0%nat; 1%nat] 2%nat
                     (Reference.start []
                        (Reference.mem_of
                           [Reference.work; Reference.home;
                            Reference.work_again])) Hu)
              0%nat 0%nat eq_refl ltac:(discriminate) eq_refl)
    as (Hr & Hlen & Hout & _).
  split; [exact Hu|]. split; [exact Hr|]. split; [exact Hlen | exact Hout].
Defined.

(** C10 on the reference collaborators: [home], already in the store, is
    added twice more. *)
Lemma upsert_same_instance_witness :
  let C := Reference.collaborators in
  let st := Reference.start []
              (Reference.mem_of [Reference.work; Reference.home]) in
  let r := @addAccountToList_times C 2 [0%nat; 1%nat] 1%nat st in
  @matching_entry C st [0%nat; 1%nat] 1%nat = Some (1%nat, 1%nat) /\
  r.1 = [0%nat; 1%nat] /\
  @memory C r.2 1%nat
  = @wrap_account C (@wrap_account C (@memory C st 1%nat)).
Proof.
  cbv zeta.
  destruct (proj2 (@upsert_same_instance Reference.collaborators
                     [0%nat; 1%nat] 1%nat
                     (Reference.start []
                        (Reference.mem_of [Reference.work; Reference.home])))
              1%nat eq_refl 2%nat)
    as (Hl & Hm & _).
  split; [reflexivity|]. split; [exact Hl | exact Hm].
Defined.

(** ** Scenarios, run on the reference collaborators *)

Module Scenarios.
Import Reference.

(** ["hello"] under ["pw1"] comes back with ["pw1"] and not with ["pw2"]. *)
Example hello_pw1 :
  let st := start [] (fun _ => blank) in
  let envelope :=
    (@encryptWithVersionLine collaborators (Some "hello") (Some "pw1") st).1 in
  (@decryptFileContent collaborators envelope (Some "pw1") st).1
  = Some "hello" /\
  (@decryptFileContent collaborators envelope (Some "pw2") st).1 = None.
Proof. split; reflexivity. Qed.

(** A legacy envelope without a version goes to the hex decoder, which
    calls its primitive on the four fields. *)
Example legacy_envelope :
  let st := start [] (fun _ => blank) in
  @calls collaborators
    (@decryptFileContent collaborators (Some "5:c2FsdA==:bm9uY2U=:Y2lwaGVy")
       (Some "pw1") st).2
  = [@Call_crypt_decrypt_hex collaborators (Some "Y2lwaGVy") 5 (Some "pw1")
       (Some "bm9uY2U=") (Some "c2FsdA==")].
Proof. reflexivity. Qed.

(** A user who gets the password right at the second prompt is asked
    twice, and told once that it was wrong. *)
Example second_try :
  let st := start [Some "pw2"; Some "pw1"; Some "pw3"] (fun _ => blank) in
  let file :=
    (@encryptWithVersionLine collaborators (Some "hello") (Some "pw1") st).1 in
  let r := @decryptFile collaborators file None st in
  r.1 = Some "hello" /\
  @count collaborators is_prompt (@calls collaborators r.2) = 2%nat /\
  @count collaborators is_perror (@calls collaborators r.2) = 1%nat /\
  @outside collaborators r.2 = [Some "pw3"].
Proof. repeat split; reflexivity. Qed.

(** An IPC message with a colon in it survives the round trip; the
    envelope has the length in front. *)
Example ipc_message :
  let st := start [] (fun _ => blank) in
  let envelope := (@encryptForIpc collaborators "a:b" [] st).1 in
  (@decryptForIpc collaborators envelope [] st).1 = Some "a:b" /\
  (head ∘ fields) <$> envelope = Some (Some "3").
Proof. split; reflexivity. Qed.

(** In a list that holds two entries of one identity, which no sequence of
    [addAccountToList] calls builds, the lookup stops at the first of them:
    adding the second again moves nothing and the first stays. *)
Example two_entries_one_identity :
  let st := start [] (mem_of [work; home; work_again]) in
  (@addAccountToList collaborators [2%nat; 0%nat] 2%nat st).1
  = [2%nat; 0%nat] /\
  ~ @unique_by_identity collaborators st [2%nat; 0%nat].
Proof.
  split; [reflexivity|]. intros Hu.
  by apply (bool_decide_pack _) in Hu.
Qed.

End Scenarios.

(** * Further properties *)

(** ** Unlocking *)

Section Unlock.
Context `{Collaborators}.

(** One round of the loop of [lockDecrypt] over the work list. *)
Lemma decrypt_items_step a f items pw st :
  decrypt_items ((a, f) :: items) pw st
  = let text := get_field f (memory st a) in
    let log' := calls st ++ [Call_crypt_decrypt text pw] in
    match crypt_decrypt text pw with
    | Ok c =>
        decrypt_items items pw
          (mk_state (oidc_errno st) log' (outside st)
             (<[a := set_field f (Some c) (memory st a)]> (memory st)))
    | Err e => (e, mk_state e log' (outside st) (memory st))
    end.
Proof.
  cbn [decrypt_items]. run_M. simpl.
  destruct (crypt_decrypt _ pw) as [c|e]; simpl; reflexivity.
Qed.

(** [lockDecrypt] is the loop over its work list. *)
Lemma lockDecrypt_items loaded pw st :
  lockDecrypt loaded pw st = decrypt_items (lock_items loaded) pw st.
Proof.
  unfold lockDecrypt. revert st.
  induction loaded as [|acc loaded IH]; intros st; [done|].
  change (lock_items (acc :: loaded))
    with ((acc, AccessToken) :: (acc, RefreshToken) :: (acc, ClientId)
          :: (acc, ClientSecret) :: lock_items loaded).
  cbn [lockDecrypt_nodes decrypt_items]. run_M.
  cbn beta iota delta [fst snd oidc_errno calls outside memory].
  repeat (match goal with
          | |- context [crypt_decrypt ?t ?p] =>
              destruct (crypt_decrypt t p) as [?|?]
          end;
          cbn beta iota delta [fst snd oidc_errno calls outside memory];
          [|reflexivity]).
  apply IH.
Qed.

(** How far the loop of [lockDecrypt] gets. *)
Lemma decrypt_items_run items pw st :
  NoDup items ->
  let r := decrypt_items items pw st in
  exists done rest,
    items = done ++ rest /\
    (forall a f, (a, f) ∈ done ->
       exists c, get_field f (memory r.2 a) = Some c /\
                 crypt_decrypt (get_field f (memory st a)) pw = Ok c) /\
    (forall a f, (a, f) ∉ done ->
       get_field f (memory r.2 a) = get_field f (memory st a)) /\
    (forall a, acc_identity (memory r.2 a) = acc_identity (memory st a)) /\
    outside r.2 = outside st /\
    (rest = [] /\ r.1 = OIDC_SUCCESS \/
     exists a f rest' e,
       rest = (a, f) :: rest' /\
       crypt_decrypt (get_field f (memory st a)) pw = Err e /\
       r.1 = e /\ oidc_errno r.2 = e).
Proof.
  cbv zeta. intros Hnd. revert st.
  induction Hnd as [|[a f] items Hnotin Hnd IH]; intros st.
  - exists [], []. repeat split; try done.
    + intros ?? Hin. by apply elem_of_nil in Hin.
    + by left.
  - rewrite decrypt_items_step. cbv zeta.
    destruct (crypt_decrypt (get_field f (memory st a)) pw) as [c|e]
      eqn:Hcall.
    + match goal with
      | |- context [decrypt_items items pw ?s] =>
          destruct (IH s)
            as (dn & rest & Hitems & Hdone & Hkeep & Hid & Hout & Hend)
      end.
      simpl in *.
      assert (Hfresh : forall a' f', (a', f') ∈ items -> (a', f') <> (a, f))
        by (intros a' f' Hin [= -> ->]; done).
      assert (Hsub : forall x, x ∈ dn -> x ∈ items)
        by (intros x Hx; rewrite Hitems; apply elem_of_app; by left).
      exists ((a, f) :: dn), rest. split; [by rewrite Hitems|].
      split; [|split; [|split; [|split; [done|]]]].
      * intros a' f' Hin. apply elem_of_cons in Hin as [[= -> ->] | Hin].
        -- exists c. split; [|done].
           rewrite Hkeep; [apply store_same|].
           intros Hin. by apply Hnotin, Hsub.
        -- destruct (Hdone a' f' Hin) as (c' & Hget & Hc').
           exists c'. split; [done|].
           rewrite store_other in Hc'; [done|]. by apply Hfresh, Hsub.
      * intros a' f' Hnot.
        rewrite Hkeep by (intros Hin; apply Hnot, elem_of_cons; by right).
        apply store_other. intros Heq. apply Hnot. rewrite Heq.
        apply elem_of_cons. by left.
      * intros a'. by rewrite Hid, store_identity.
      * destruct Hend as [[-> Hr] | (a2 & f2 & rest' & e & -> & Hc' & Hr)].
        -- by left.
        -- right. exists a2, f2, rest', e. split; [done|].
           rewrite store_other in Hc'; [done|].
           apply Hfresh. rewrite Hitems. apply elem_of_app. right.
           apply elem_of_cons. by left.
    + exists [], ((a, f) :: items). simpl. repeat split; try done.
      * intros ?? Hin. by apply elem_of_nil in Hin.
      * right. by exists a, f, items, e.
Qed.

(** X1. In a store that holds each account once, when [lockDecrypt] does
    not return [OIDC_SUCCESS] it stopped at the first field whose decryption
    failed: its result is the error code of that decryption, which is also
    in [oidc_errno]; the fields before it in the walk hold the plaintext of
    their former value, the failing field, the fields after it and the
    accounts that were not reached are as they were. *)
Theorem lockDecrypt_failure loaded password st :
  NoDup loaded ->
  let r := lockDecrypt loaded password st in
  r.1 <> OIDC_SUCCESS ->
  exists done a f rest,
    lock_items loaded = done ++ (a, f) :: rest /\
    crypt_decrypt (get_field f (memory st a)) password = Err r.1 /\
    oidc_errno r.2 = r.1 /\
    (forall a' f', (a', f') ∈ done ->
       exists c, get_field f' (memory r.2 a') = Some c /\
                 crypt_decrypt (get_field f' (memory st a')) password = Ok c) /\
    (forall a' f', (a', f') ∉ done ->
       get_field f' (memory r.2 a') = get_field f' (memory st a')) /\
    (forall p, (forall f', (p, f') ∉ done) -> memory r.2 p = memory st p).
Proof.
  intros Hnd. cbv zeta. rewrite lockDecrypt_items. intros Hfail.
  destruct (decrypt_items_run (lock_items loaded) password st
              (lock_items_NoDup _ Hnd))
    as (dn & rest & Hitems & Hdone & Hkeep & Hid & _ & Hend).
  destruct Hend as [[_ Hr] | (a & f & rest' & e & -> & Hc & Hr & He)];
    [done|].
  exists dn, a, f, rest'. split; [done|]. split; [by rewrite Hr|].
  split; [by rewrite Hr|]. split; [done|]. split; [done|].
  intros p Hp. apply account_ext; [apply Hid|].
  intros f'. by apply Hkeep.
Qed.

(** X3. When the decryption of the access token of the first account
    fails, as it does with a wrong password, [lockDecrypt] returns the error
    after that one call and the state is as before but for [oidc_errno] and
    the log: no account is changed. *)
Theorem lockDecrypt_first_failure a loaded password st e :
  crypt_decrypt (access_token (memory st a)) password = Err e ->
  lockDecrypt (a :: loaded) password st
  = (e, mk_state e
          (calls st ++ [Call_crypt_decrypt (access_token (memory st a))
                          password])
          (outside st) (memory st)).
Proof.
  intros He. rewrite lockDecrypt_items.
  change (lock_items (a :: loaded))
    with ((a, AccessToken) :: (a, RefreshToken) :: (a, ClientId)
          :: (a, ClientSecret) :: lock_items loaded).
  rewrite decrypt_items_step. cbv zeta. simpl. by rewrite He.
Qed.

End Unlock.

(** ** Locking and unlocking together *)

Section LockUnlock.
Context `{Collaborators}.

Lemma encrypt_items_identity items pw st p :
  acc_identity (memory (encrypt_items items pw st).2 p)
  = acc_identity (memory st p).
Proof.
  revert st. induction items as [|[a f] items IH]; intros st; [done|].
  rewrite encrypt_items_step. cbv zeta.
  destruct (crypt_encrypt _ pw (outside st)) as [[c|e] w]; simpl; [|done].
  rewrite IH. simpl. apply store_identity.
Qed.

Lemma decrypt_items_identity items pw st p :
  acc_identity (memory (decrypt_items items pw st).2 p)
  = acc_identity (memory st p).
Proof.
  revert st. induction items as [|[a f] items IH]; intros st; [done|].
  rewrite decrypt_items_step. cbv zeta.
  destruct (crypt_decrypt _ pw) as [c|e]; simpl; [|done].
  rewrite IH. simpl. apply store_identity.
Qed.

Lemma unique_by_identity_ext st st' l :
  (forall p, acc_identity (memory st' p) = acc_identity (memory st p)) ->
  unique_by_identity st' l <-> unique_by_identity st l.
Proof.
  intros Hid. unfold unique_by_identity, identities.
  assert ((fun p => acc_identity (memory st' p)) <$> l
          = (fun p => acc_identity (memory st p)) <$> l) as ->; [|done].
  apply list_fmap_ext. intros ???. apply Hid.
Qed.

(** X4. Neither [lockEncrypt] nor [lockDecrypt], whether they succeed or
    stop at a failure, changes the identity of any account: every lookup by
    identity finds the same entry after as before, and a list has one entry
    per identity after exactly when it had before. *)
Theorem lock_keeps_identities loaded password st :
  let le := lockEncrypt loaded password st in
  let ld := lockDecrypt loaded password st in
  (forall p, acc_identity (memory le.2 p) = acc_identity (memory st p)) /\
  (forall p, acc_identity (memory ld.2 p) = acc_identity (memory st p)) /\
  (forall l key, matching_entry le.2 l key = matching_entry st l key) /\
  (forall l key, matching_entry ld.2 l key = matching_entry st l key) /\
  (forall l, unique_by_identity le.2 l <-> unique_by_identity st l) /\
  (forall l, unique_by_identity ld.2 l <-> unique_by_identity st l).
Proof.
  cbv zeta. rewrite lockEncrypt_items, lockDecrypt_items.
  pose proof (encrypt_items_identity (lock_items loaded) password st) as He.
  pose proof (decrypt_items_identity (lock_items loaded) password st) as Hd.
  split; [done|]. split; [done|]. split; [|split; [|split]].
  - intros l key. by apply matching_entry_ext.
  - intros l key. by apply matching_entry_ext.
  - intros l. by apply unique_by_identity_ext.
  - intros l. by apply unique_by_identity_ext.
Qed.

Lemma lock_items_length loaded :
  length (lock_items loaded) = (4 * length loaded)%nat.
Proof. induction loaded as [|a l IH]; simpl; [done|]. rewrite IH. lia. Qed.

(** The primitives report a failure with an error code. *)
Hypothesis crypt_encrypt_reports :
  forall text pw w e, (crypt_encrypt text pw w).1 = Err e -> e <> OIDC_SUCCESS.
Hypothesis crypt_decrypt_reports :
  forall text pw e, crypt_decrypt text pw = Err e -> e <> OIDC_SUCCESS.

Lemma encrypt_call_ext st a f v pw (l : list (loc * field)) :
  (a, f) ∉ l ->
  encrypt_call
    (mk_state (oidc_errno st) (calls st) (outside st)
       (<[a := set_field f v (memory st a)]> (memory st))) pw <$> l
  = encrypt_call st pw <$> l.
Proof.
  intros Hnot. apply list_fmap_ext. intros i [a' f'] Hi.
  unfold encrypt_call. simpl. rewrite store_other; [done|].
  intros Heq. apply Hnot. rewrite <- Heq.
  by apply list_elem_of_lookup_2 in Hi.
Qed.

Lemma decrypt_call_ext st a f v pw (l : list (loc * field)) :
  (a, f) ∉ l ->
  decrypt_call
    (mk_state (oidc_errno st) (calls st) (outside st)
       (<[a := set_field f v (memory st a)]> (memory st))) pw <$> l
  = decrypt_call st pw <$> l.
Proof.
  intros Hnot. apply list_fmap_ext. intros i [a' f'] Hi.
  unfold decrypt_call. simpl. rewrite store_other; [done|].
  intros Heq. apply Hnot. rewrite <- Heq.
  by apply list_elem_of_lookup_2 in Hi.
Qed.

Lemma not_elem_of_take {A : Type} (l : list A) k x : x ∉ l -> x ∉ take k l.
Proof.
  intros Hnot Hin. apply Hnot.
  apply list_elem_of_lookup in Hin as [i Hi].
  apply lookup_take_Some in Hi as [Hi _].
  by apply list_elem_of_lookup_2 in Hi.
Qed.

Lemma encrypt_items_log items pw st :
  NoDup items ->
  let r := encrypt_items items pw st in
  exists k, (k <= length items)%nat /\
    calls r.2 = calls st ++ (encrypt_call st pw <$> take k items) /\
    (r.1 = OIDC_SUCCESS -> k = length items).
Proof.
  cbv zeta. intros Hnd. revert st.
  induction Hnd as [|[a f] items Hnotin Hnd IH]; intros st.
  - exists 0%nat. simpl. by rewrite app_nil_r.
  - rewrite encrypt_items_step. cbv zeta.
    destruct (crypt_encrypt (get_field f (memory st a)) pw (outside st))
      as [[c|e] w] eqn:Hcall; simpl.
    + match goal with
      | |- context [encrypt_items items pw ?s] =>
          destruct (IH s) as (k & Hk & Hlog & Hok);
          pose proof (encrypt_call_ext
                        (mk_state (oidc_errno st)
                           (calls st ++ [Call_crypt_encrypt
                                           (get_field f (memory st a)) pw])
                           w (memory st))
                        a f (Some c) pw (take k items)
                        (not_elem_of_take _ _ _ Hnotin)) as Hext
      end.
      simpl in *. exists (S k). split; [lia|]. split; [|by intros ->%Hok].
      rewrite Hlog. rewrite <- app_assoc. simpl. f_equal. f_equal.
      exact Hext.
    + exists 1%nat. split; [lia|]. split; [by destruct items|].
      intros ->.
      destruct (crypt_encrypt_reports (get_field f (memory st a)) pw
                  (outside st) OIDC_SUCCESS); [by rewrite Hcall | done].
Qed.

Lemma decrypt_items_log items pw st :
  NoDup items ->
  let r := decrypt_items items pw st in
  exists k, (k <= length items)%nat /\
    calls r.2 = calls st ++ (decrypt_call st pw <$> take k items) /\
    (r.1 = OIDC_SUCCESS -> k = length items).
Proof.
  cbv zeta. intros Hnd. revert st.
  induction Hnd as [|[a f] items Hnotin Hnd IH]; intros st.
  - exists 0%nat. simpl. by rewrite app_nil_r.
  - rewrite decrypt_items_step. cbv zeta.
    destruct (crypt_decrypt (get_field f (memory st a)) pw) as [c|e]
      eqn:Hcall; simpl.
    + match goal with
      | |- context [decrypt_items items pw ?s] =>
          destruct (IH s) as (k & Hk & Hlog & Hok);
          pose proof (decrypt_call_ext
                        (mk_state (oidc_errno st)
                           (calls st ++ [Call_crypt_decrypt
                                           (get_field f (memory st a)) pw])
                           (outside st) (memory st))
                        a f (Some c) pw (take k items)
                        (not_elem_of_take _ _ _ Hnotin)) as Hext
      end.
      simpl in *. exists (S k). split; [lia|]. split; [|by intros ->%Hok].
      rewrite Hlog. rewrite <- app_assoc. simpl. f_equal. f_equal.
      exact Hext.
    + exists 1%nat. split; [lia|]. split; [by destruct items|].
      intros ->. by destruct (crypt_decrypt_reports _ _ _ Hcall).
Qed.

(** X5. On a store that holds each account once, the calls [lockEncrypt]
    makes are [crypt_encrypt] calls with the lock password, one per field in
    the order of the walk, each on the value the field had at the start;
    they are at most four per account and, when the result is
    [OIDC_SUCCESS], exactly four per account.  The same holds for
    [lockDecrypt] with [crypt_decrypt], which is the only decoder it calls. *)
Theorem lock_calls loaded password st :
  NoDup loaded ->
  (let r := lockEncrypt loaded password st in
   exists k, (k <= 4 * length loaded)%nat /\
     calls r.2
     = calls st ++ (encrypt_call st password <$> take k (lock_items loaded)) /\
     (r.1 = OIDC_SUCCESS -> k = (4 * length loaded)%nat)) /\
  (let r := lockDecrypt loaded password st in
   exists k, (k <= 4 * length loaded)%nat /\
     calls r.2
     = calls st ++ (decrypt_call st password <$> take k (lock_items loaded)) /\
     (r.1 = OIDC_SUCCESS -> k = (4 * length loaded)%nat)).
Proof.
  intros Hnd. cbv zeta. rewrite lockEncrypt_items, lockDecrypt_items.
  rewrite <- lock_items_length. split.
  - apply encrypt_items_log. by apply lock_items_NoDup.
  - apply decrypt_items_log. by apply lock_items_NoDup.
Qed.

(** What was encrypted under a password decrypts under it; only a text
    that is there can be encrypted. *)
Hypothesis crypt_lock_roundtrip :
  forall text pw w c,
    (crypt_encrypt text pw w).1 = Ok c ->
    exists t, text = Some t /\ crypt_decrypt (Some c) pw = Ok t.

(** X2. Locking and unlocking with the same password: when [lockEncrypt]
    succeeds on a store that holds each account once, [lockDecrypt] with
    the same password on the resulting state succeeds too, and every
    account is back to what it was before the lock, field for field. *)
Theorem lock_unlock_roundtrip loaded password st :
  NoDup loaded ->
  let l := lockEncrypt loaded password st in
  l.1 = OIDC_SUCCESS ->
  let u := lockDecrypt loaded password l.2 in
  u.1 = OIDC_SUCCESS /\ forall p, memory u.2 p = memory st p.
Proof.
  intros Hnd. cbv zeta. rewrite lockEncrypt_items, lockDecrypt_items.
  intros Hok.
  pose proof (lock_items_NoDup _ Hnd) as Hitems.
  destruct (encrypt_items_run (lock_items loaded) password st Hitems)
    as (dn & rest & Hsplit & Hdone & Hkeep & Hid & Hend).
  destruct Hend as [[-> _] | (a & f & rest' & e & w & _ & Hw & Hr & _)].
  2: { destruct (crypt_encrypt_reports _ _ _ _ Hw). congruence. }
  rewrite app_nil_r in Hsplit. subst dn.
  set (st1 := (encrypt_items (lock_items loaded) password st).2) in *.
  destruct (decrypt_items_run (lock_items loaded) password st1 Hitems)
    as (dn & rest & Hsplit & Hdone' & Hkeep' & Hid' & _ & Hend).
  assert (Hback : forall a f c,
            (a, f) ∈ lock_items loaded ->
            crypt_decrypt (get_field f (memory st1 a)) password = c ->
            c = match get_field f (memory st a) with
                | Some t => Ok t
                | None => c
                end /\ is_Some (get_field f (memory st a))).
  { intros a f c Hin Hc.
    destruct (Hdone a f Hin) as (c1 & Hget & w & Hw).
    destruct (crypt_lock_roundtrip _ _ _ _ Hw) as (t & Ht & Hdec).
    rewrite Hget, Hdec in Hc. rewrite Ht. split; [done | by eexists]. }
  destruct Hend as [[-> Hr] | (a & f & rest' & e & -> & Hc & _)].
  2: { assert ((a, f) ∈ lock_items loaded) as Hin.
       { rewrite Hsplit. apply elem_of_app. right. apply elem_of_cons.
         by left. }
       destruct (Hback a f _ Hin Hc) as [Heq [t Ht]].
       rewrite Ht in Heq. done. }
  rewrite app_nil_r in Hsplit. subst dn. split; [done|].
  intros p. apply account_ext.
  - by rewrite Hid', Hid.
  - intros f. destruct (decide ((p, f) ∈ lock_items loaded)) as [Hin|Hnot].
    + destruct (Hdone' p f Hin) as (c & Hget & Hc).
      destruct (Hback p f _ Hin Hc) as [Heq [t Ht]].
      rewrite Ht in Heq. rewrite Hget, Ht. congruence.
    + by rewrite Hkeep', Hkeep.
Qed.

End LockUnlock.

(** ** Insertion and lookup in the store *)

Section StoreUse.
Context `{Collaborators}.

Lemma filter_delete_False {A : Type} (P : A -> Prop)
  `{!forall x, Decision (P x)} (l : list A) i x :
  l !! i = Some x -> ~ P x -> filter P (delete i l) = filter P l.
Proof.
  revert i. induction l as [|y l IH]; intros [|i] Hi Hx; simpl in *; try done.
  - injection Hi as ->. by rewrite filter_cons_False.
  - rewrite !filter_cons. by rewrite (IH i Hi Hx).
Qed.

Lemma addAccountToList_elem loaded account st :
  account ∈ (addAccountToList loaded account st).1.
Proof.
  destruct (addAccountToList_unfold loaded account st) as (_ & _ & _ & _ & ->).
  destruct (matching_entry _ loaded account) as [[i val]|] eqn:Hfind.
  - destruct (bool_decide (val <> account)) eqn:Hne.
    + apply elem_of_app. right. by apply list_elem_of_singleton.
    + apply bool_decide_eq_false in Hne.
      apply matching_entry_Some in Hfind as (Hi & _).
      assert (val = account) as -> by (by destruct (decide (val = account))).
      by apply list_elem_of_lookup_2 in Hi.
  - apply elem_of_app. right. by apply list_elem_of_singleton.
Qed.

(** X8. Whatever the list holds, [addAccountToList] leaves the entries of
    the other identities as they are and in their order, leaves the account
    in the list, and removes at most one entry: the list is at most one
    shorter before the account is put at the tail, so never shorter and at
    most one longer after. *)
Theorem upsert_keeps_others loaded account st :
  let r := addAccountToList loaded account st in
  filter (other_identity st account) r.1
  = filter (other_identity st account) loaded /\
  account ∈ r.1 /\
  (length loaded <= length r.1 <= S (length loaded))%nat.
Proof.
  cbv zeta. split; [|split; [apply addAccountToList_elem|]];
    destruct (addAccountToList_unfold loaded account st)
      as (_ & _ & _ & _ & Hr);
    rewrite (matching_entry_ext st _ loaded account
               (addAccountToList_identity loaded account st)) in Hr;
    rewrite Hr;
    assert (Hself : ~ other_identity st account account)
      by (intros Hne; by apply Hne);
    (destruct (matching_entry st loaded account) as [[i val]|] eqn:Hfind;
     [apply matching_entry_Some in Hfind as (Hi & Hsame & _);
      destruct (bool_decide (val <> account))|]).
  - rewrite filter_app, (filter_cons_False _ _ _ Hself), filter_nil,
      app_nil_r.
    apply (filter_delete_False _ _ _ _ Hi). intros Hne. by apply Hne.
  - done.
  - by rewrite filter_app, (filter_cons_False _ _ _ Hself), filter_nil,
      app_nil_r.
  - rewrite length_app, length_delete by eauto. simpl.
    apply lookup_lt_Some in Hi. lia.
  - lia.
  - rewrite length_app. simpl. lia.
Qed.

(** X9. [getAccountFromList] returns [NULL] exactly when no entry of the
    list has the identity of the key, and then the state is untouched; what
    it returns otherwise is an entry of the list with the identity of the
    key. *)
Theorem lookup_sound loaded key st :
  let r := getAccountFromList loaded key st in
  (r.1 = None <->
   forall p, p ∈ loaded ->
             acc_identity (memory st key) <> acc_identity (memory st p)) /\
  (r.1 = None -> r.2 = st) /\
  (forall p, r.1 = Some p ->
     p ∈ loaded /\ acc_identity (memory st p) = acc_identity (memory st key)).
Proof.
  cbv zeta.
  destruct (getAccountFromList_unfold loaded key st) as (Hr & _).
  split; [|split].
  - rewrite Hr, <- matching_entry_None.
    by destruct (matching_entry st loaded key) as [[i p]|].
  - intros Hnone. rewrite Hr in Hnone.
    unfold getAccountFromList, matching_entry in *. revert Hnone. run_M.
    simpl. by destruct (list_find _ loaded) as [[i p]|].
  - intros p Hp. rewrite Hr in Hp.
    destruct (matching_entry st loaded key) as [[i q]|] eqn:Hfind; [|done].
    injection Hp as ->.
    apply matching_entry_Some in Hfind as (Hi & Hsame & _).
    split; [by apply list_elem_of_lookup_2 in Hi | done].
Qed.

Lemma getAccountFromList_identity loaded key st p :
  acc_identity (memory (getAccountFromList loaded key st).2 p)
  = acc_identity (memory st p).
Proof.
  destruct (getAccountFromList_unfold loaded key st) as (_ & Hm & _).
  rewrite Hm. by destruct (decide _).
Qed.

(** The memory cipher gives back what it was given. *)
Hypothesis memory_roundtrip : forall x, memoryDecrypt (memoryEncrypt x) = x.

Lemma unwrap_wrap a : unwrap_account (wrap_account a) = a.
Proof.
  destruct a. unfold unwrap_account, wrap_account. simpl.
  by rewrite !memory_roundtrip.
Qed.

(** The entry found for a key with the identity of an account that was
    just added to a store with one entry per identity is that account. *)
Lemma matching_entry_added loaded account key st :
  unique_by_identity st loaded ->
  acc_identity (memory st key) = acc_identity (memory st account) ->
  let r := addAccountToList loaded account st in
  exists j, matching_entry r.2 r.1 key = Some (j, account).
Proof.
  intros Hu Hkey. cbv zeta.
  pose proof (addAccountToList_elem loaded account st) as Hin.
  apply list_elem_of_lookup in Hin as [j Hj]. exists j.
  apply matching_entry_unique;
    [by apply addAccountToList_unique | done |].
  by rewrite !addAccountToList_identity.
Qed.

Lemma add_then_get_aux loaded account key st :
  unique_by_identity st loaded ->
  acc_identity (memory st key) = acc_identity (memory st account) ->
  let r := addAccountToList loaded account st in
  let g := getAccountFromList r.1 key r.2 in
  exists j, matching_entry r.2 r.1 key = Some (j, account) /\
            g.1 = Some account /\
            forall p, memory g.2 p = memory st p.
Proof.
  intros Hu Hkey. cbv zeta.
  destruct (matching_entry_added loaded account key st Hu Hkey) as [j Hj].
  destruct (addAccountToList_unfold loaded account st) as (Hm & _).
  set (r := addAccountToList loaded account st) in *.
  destruct (getAccountFromList_unfold r.1 key r.2) as (Hr & Hg & _).
  rewrite Hj in Hr.
  change (snd <$> Some (j, account)) with (Some account) in Hr.
  exists j. split; [done|]. split; [done|].
  intros p. rewrite Hg, Hr, Hm.
  destruct (decide (Some p = Some account)) as [[= ->]|Hp].
  - by rewrite decide_True, unwrap_wrap.
  - by rewrite decide_False by congruence.
Qed.

(** X7. Insertion, then lookup: after [addAccountToList] of an account to a
    store with one entry per identity, [getAccountFromList] with a key of
    the account's identity returns that account, and every account in
    memory, this one included, is what it was before the insertion. *)
Theorem add_then_get loaded account key st :
  unique_by_identity st loaded ->
  acc_identity (memory st key) = acc_identity (memory st account) ->
  let r := addAccountToList loaded account st in
  let g := getAccountFromList r.1 key r.2 in
  g.1 = Some account /\ forall p, memory g.2 p = memory st p.
Proof.
  intros Hu Hkey. cbv zeta.
  by destruct (add_then_get_aux loaded account key st Hu Hkey)
    as (j & _ & Hg & Hm).
Qed.

(** X10. Taking an account out for use and putting it back, as the note of
    [getAccountFromList] asks: after an insertion into a store with one
    entry per identity, a lookup of the account followed by
    [addAccountToList] of what was returned leaves the list as the first
    insertion made it, and the account wrapped once, as the first insertion
    left it. *)
Theorem get_then_add_again loaded account key st :
  unique_by_identity st loaded ->
  acc_identity (memory st key) = acc_identity (memory st account) ->
  let r := addAccountToList loaded account st in
  let g := getAccountFromList r.1 key r.2 in
  let r' := addAccountToList r.1 account g.2 in
  r'.1 = r.1 /\ forall p, memory r'.2 p = memory r.2 p.
Proof.
  intros Hu Hkey. cbv zeta.
  destruct (add_then_get_aux loaded account key st Hu Hkey)
    as (j & Hj & _ & Hg).
  set (r := addAccountToList loaded account st) in *.
  set (g := getAccountFromList r.1 key r.2) in *.
  destruct (addAccountToList_unfold r.1 account g.2) as (Hm' & _ & _ & _ & Hr').
  destruct (addAccountToList_unfold loaded account st) as (Hm & _).
  fold r in Hm.
  rewrite (matching_entry_ext g.2 _ r.1 account
             (addAccountToList_identity r.1 account g.2)) in Hr'.
  rewrite (matching_entry_ext r.2 g.2 r.1 account
             (getAccountFromList_identity r.1 key r.2)) in Hr'.
  assert (matching_entry r.2 r.1 account = Some (j, account)) as Hself.
  { apply matching_entry_unique.
    - by apply addAccountToList_unique.
    - by apply matching_entry_Some in Hj as (Hj & _).
    - done. }
  rewrite Hself in Hr'.
  rewrite bool_decide_eq_false_2 in Hr' by (intros Hne; by apply Hne).
  split; [done|]. intros p. rewrite Hm', Hm, !Hg.
  by destruct (decide (p = account)) as [->|].
Qed.

End StoreUse.

(** ** More on the envelopes *)

Section EnvelopeUse.
Context `{Collaborators}.

(** X14. Only the leading tokens of an envelope count.  Two IPC envelopes
    with the same first three colon separated tokens, and two legacy
    envelopes with the same first four, are decoded alike: empty fields,
    colons in front and whatever follows the last field read are passed
    over. *)
Theorem leading_tokens_decide (m1 m2 : string) k password st :
  (take 3 (fields m1) = take 3 (fields m2) ->
   decryptForIpc (Some m1) k st = decryptForIpc (Some m2) k st) /\
  (take 4 (fields m1) = take 4 (fields m2) ->
   decryptHexFileContent (Some m1) password st
   = decryptHexFileContent (Some m2) password st).
Proof.
  split; intros Heq.
  - rewrite !decryptForIpc_fields.
    assert (forall i, (i < 3)%nat -> fields m1 !! i = fields m2 !! i) as Hi.
    { intros i Hlt. rewrite <- (lookup_take_lt (fields m1) 3 i Hlt).
      rewrite <- (lookup_take_lt (fields m2) 3 i Hlt). by rewrite Heq. }
    by rewrite (Hi 0%nat), (Hi 1%nat), (Hi 2%nat) by lia.
  - rewrite !(decryptHexFileContent_fields).
    assert (forall i, (i < 4)%nat -> fields m1 !! i = fields m2 !! i) as Hi.
    { intros i Hlt. rewrite <- (lookup_take_lt (fields m1) 4 i Hlt).
      rewrite <- (lookup_take_lt (fields m2) 4 i Hlt). by rewrite Heq. }
    by rewrite (Hi 0%nat), (Hi 1%nat), (Hi 2%nat), (Hi 3%nat) by lia.
Qed.

(** X15. Missing arguments.  [decryptText] without a cipher or without a
    password, whatever the version, and [decryptForIpc] without a message
    return [NULL] with [oidc_errno] at [OIDC_EARGNULLFUNC]; no call leaves
    the file and nothing else changes. *)
Theorem missing_arguments cipher password version k st :
  (cipher = None \/ password = None ->
   decryptText cipher password version st
   = (None, mk_state OIDC_EARGNULLFUNC (calls st) (outside st) (memory st))) /\
  decryptForIpc None k st
  = (None, mk_state OIDC_EARGNULLFUNC (calls st) (outside st) (memory st)).
Proof.
  split; [|done].
  intros [-> | ->]; unfold decryptText; [done|]. by rewrite orb_true_r.
Qed.

(** X16. [encryptWithVersionLine] does not look at the result of
    [encryptText]: it returns a string in every case.  When the encryption
    failed with [e], the string is what [%s] prints for [NULL], a line feed
    and the version line, and the failure shows in [oidc_errno] only. *)
Theorem encryptWithVersionLine_never_NULL text password st :
  let r := encryptWithVersionLine text password st in
  is_Some r.1 /\
  (forall e, (crypt_encrypt text password (outside st)).1 = Err e ->
     r.1 = Some (fmt_s None +:+
                 String LF (fmt_s (simpleVersionToVersionLine (Some VERSION))))
     /\ oidc_errno r.2 = e).
Proof.
  cbv zeta. unfold encryptWithVersionLine. run_M. simpl.
  destruct (crypt_encrypt text password (outside st)) as [[c|e] w]; simpl.
  - split; [by eexists | by intros e [=]].
  - split; [by eexists|]. by intros e' [= <-].
Qed.

(** The running version is at or above the threshold. *)
Hypothesis running_version_current :
  versionAtLeast (Some VERSION) (Some MIN_BASE64_VERSION) = true.

(** What was encrypted under a password decrypts under it. *)
Hypothesis crypt_text_roundtrip :
  forall text pw w blob,
    (crypt_encrypt (Some text) (Some pw) w).1 = Ok blob ->
    crypt_decrypt (Some blob) (Some pw) = Ok text.

(** X11. What [encryptText] returns for a text and a password,
    [decryptText] turns back into the text when it is given the same
    password and the running version. *)
Theorem text_roundtrip (P W : string) st st' blob :
  (encryptText (Some P) (Some W) st).1 = Some blob ->
  (decryptText (Some blob) (Some W) (Some VERSION) st').1 = Some P.
Proof.
  unfold encryptText, decryptText. run_M. simpl.
  rewrite running_version_current.
  pose proof (crypt_text_roundtrip P W (outside st)) as Hrt.
  destruct (crypt_encrypt (Some P) (Some W) (outside st)) as [[c|e] w];
    simpl in *; intros [= <-].
  by rewrite (Hrt c eq_refl).
Qed.

End EnvelopeUse.

(** ** Decoding file contents *)

Section FileContent.
Context `{Collaborators}.

Hypothesis split_lines :
  forall s, delimitedStringToList (Some s) LF = tokens LF s.
Hypothesis versionLine_NULL : versionLineToSimpleVersion None = None.
Hypothesis versionAtLeast_NULL : forall m, versionAtLeast None m = false.

(** X13. The legacy path as a whole: a file content of one line with the
    four fields [len:salt:nonce:cipher], [len] converting to a non-zero
    value, makes [decryptFileContent] call [crypt_decrypt_hex] once, with
    the cipher, the length, the password, the nonce and the salt in that
    order, and return what it returns. *)
Theorem legacy_file_content (content len salt nonce cipher : string)
  password st :
  free_of LF content = true ->
  fields content = [len; salt; nonce; cipher] ->
  to_ulong (strToInt (Some len)) <> 0 ->
  decryptFileContent (Some content) password st
  = do_crypt_decrypt_hex (Some cipher) (to_ulong (strToInt (Some len)))
      password (Some nonce) (Some salt) st.
Proof.
  intros Hfree Hfields Hlen. unfold decryptFileContent.
  assert (content <> EmptyString) as Hne by (by intros ->).
  rewrite split_lines, (tokens_free _ _ Hfree Hne).
  unfold decryptLinesList, version_line_of. simpl.
  rewrite versionLine_NULL, versionAtLeast_NULL.
  apply decryptHexFileContent_wellformed; by rewrite ?Hfields.
Qed.

Hypothesis version_line_one_line :
  exists vl, simpleVersionToVersionLine (Some VERSION) = Some vl /\
             free_of LF vl = true /\ vl <> EmptyString.
Hypothesis running_version_current :
  versionAtLeast
    (versionLineToSimpleVersion (simpleVersionToVersionLine (Some VERSION)))
    (Some MIN_BASE64_VERSION) = true.

(** The blob of the primitive has a line. *)
Hypothesis crypt_blob_lines :
  forall text pw w blob,
    (crypt_encrypt text pw w).1 = Ok blob -> tokens LF blob <> [].

(** X12. Decoding what [encryptWithVersionLine] wrote, with any password:
    when the encryption gave a blob, [decryptFileContent] on the envelope
    makes one call, to [crypt_decryptFromList] with the lines of the blob
    followed by the version line and with the password it was given, and
    its result is the verdict of that call: a rejection, as for a wrong
    password, is a [NULL] result with the primitive's code in
    [oidc_errno]. *)
Theorem current_file_content text W password st st' blob :
  (crypt_encrypt text W (outside st)).1 = Ok blob ->
  exists envelope vl,
    (encryptWithVersionLine text W st).1 = Some envelope /\
    simpleVersionToVersionLine (Some VERSION) = Some vl /\
    decryptFileContent (Some envelope) password st'
    = do_crypt_decryptFromList (tokens LF blob ++ [vl]) password st' /\
    (forall e, crypt_decryptFromList (tokens LF blob ++ [vl]) password = Err e ->
       (decryptFileContent (Some envelope) password st').1 = None /\
       oidc_errno (decryptFileContent (Some envelope) password st').2 = e).
Proof.
  intros Henc.
  destruct version_line_one_line as (vl & Hvl & Hfree & Hvne).
  pose proof (crypt_blob_lines _ _ _ _ Henc) as Hlines.
  exists (blob +:+ String LF vl), vl.
  assert (decryptFileContent (Some (blob +:+ String LF vl)) password st'
          = do_crypt_decryptFromList (tokens LF blob ++ [vl]) password st')
    as Hdec.
  { unfold decryptFileContent. rewrite split_lines, tokens_app.
    rewrite (tokens_free _ _ Hfree Hvne).
    unfold decryptLinesList. rewrite version_line_of_snoc by done.
    by rewrite <- Hvl, running_version_current. }
  split; [|split; [done|split; [done|]]].
  - unfold encryptWithVersionLine. run_M. simpl.
    destruct (crypt_encrypt text W (outside st)) as [o w].
    simpl in Henc. subst o. simpl. by rewrite Hvl.
  - intros e He. rewrite Hdec. unfold do_crypt_decryptFromList. run_M.
    simpl. by rewrite He.
Qed.

End FileContent.

(** ** The first prompt *)

Section FirstPrompt.
Context `{Collaborators}.

(** X17. [decryptOidcFile] without a password: with no try allowed it
    returns [NULL] at once, without a prompt or a decoding; with at least
    one, when the password of the first prompt decodes the lines of the
    file, the plaintext is returned after that one prompt, nothing is
    reported and the user is not asked again. *)
Theorem first_prompt concatToOidcDir filename st :
  let r := decryptOidcFile concatToOidcDir filename None st in
  let lines := getLinesFromFile (concatToOidcDir filename) (outside st) in
  let p := do_promptPassword "Enter decryption Password: " st in
  (MAX_PASS_TRIES = 0%nat -> r = (None, st)) /\
  (forall plain,
     (0 < MAX_PASS_TRIES)%nat ->
     (decryptLinesList lines p.1 p.2).1 = Some plain ->
     r = decryptLinesList lines p.1 p.2 /\
     exists new, calls_since st r.2 new /\
                 count is_prompt new = 1%nat /\
                 count is_perror new = 0%nat).
Proof.
  cbv zeta.
  change (decryptOidcFile concatToOidcDir filename None st)
    with (decryptFile_loop MAX_PASS_TRIES
            (getLinesFromFile (concatToOidcDir filename) (outside st))
            None st).
  split.
  - by intros ->.
  - intros plain Hpos Hplain.
    destruct MAX_PASS_TRIES as [|n]; [lia|].
    rewrite decryptFile_loop_step. cbv zeta. rewrite Hplain.
    split; [done|].
    pose proof (do_promptPassword_calls "Enter decryption Password: " st)
      as Hp.
    destruct (decryptLinesList_calls
                (getLinesFromFile (concatToOidcDir filename) (outside st))
                (do_promptPassword "Enter decryption Password: " st).1
                (do_promptPassword "Enter decryption Password: " st).2)
      as (new & Hc & Hpr & Hpe & _).
    exists ([Call_promptPassword "Enter decryption Password: "] ++ new).
    split; [by eapply calls_since_trans|].
    rewrite !count_app, Hpr, Hpe. done.
Qed.

End FirstPrompt.

(** ** The invariant of the store *)

Section StoreInvariant.
Context `{Collaborators}.

(** X6. The store operations keep the store at one entry per identity:
    the list [addAccountToList] leaves has one entry per identity in the
    memory it leaves, whichever of its three cases applies, and so has the
    list [getAccountFromList] was given in the memory it leaves. *)
Theorem store_invariant loaded account key st :
  unique_by_identity st loaded ->
  unique_by_identity (addAccountToList loaded account st).2
    (addAccountToList loaded account st).1 /\
  unique_by_identity (getAccountFromList loaded key st).2 loaded.
Proof.
  intros Hu. split.
  - by apply addAccountToList_unique.
  - apply (unique_by_identity_ext st); [|done].
    intros p. apply getAccountFromList_identity.
Qed.

End StoreInvariant.

(** ** The reference collaborators meet the further contracts *)

Module ReferenceContracts.
Import Reference ReferenceFacts.

Lemma ref_crypt_decrypt_reports text pw e :
  @crypt_decrypt collaborators text pw = Err e -> e <> OIDC_SUCCESS.
Proof.
  simpl. unfold ref_crypt_decrypt, ref_crypt_decryptFromList.
  repeat case_match; by intros [= <-].
Qed.

Lemma ref_crypt_lock_roundtrip text pw (w : @world collaborators) c :
  (@crypt_encrypt collaborators text pw w).1 = Ok c ->
  exists t, text = Some t /\ @crypt_decrypt collaborators (Some c) pw = Ok t.
Proof.
  simpl. destruct text as [t|], pw as [p|]; simpl; intros [= <-].
  exists t. split; [done|]. unfold ref_crypt_decrypt.
  rewrite ref_crypt_lines. simpl.
  rewrite bool_decide_eq_true_2 by done. by rewrite dearmor_armor.
Qed.

Lemma ref_crypt_text_roundtrip text pw (w : @world collaborators) blob :
  (@crypt_encrypt collaborators (Some text) (Some pw) w).1 = Ok blob ->
  @crypt_decrypt collaborators (Some blob) (Some pw) = Ok text.
Proof.
  intros Henc.
  destruct (ref_crypt_lock_roundtrip _ _ _ _ Henc) as (t & [= <-] & Hdec).
  done.
Qed.

Lemma ref_crypt_blob_lines text pw (w : @world collaborators) blob :
  (@crypt_encrypt collaborators text pw w).1 = Ok blob ->
  tokens LF blob <> [].
Proof.
  simpl. destruct text as [t|], pw as [p|]; simpl; intros [= <-].
  by rewrite ref_crypt_lines.
Qed.

Lemma ref_memory_roundtrip x :
  @memoryDecrypt collaborators (@memoryEncrypt collaborators x) = x.
Proof. by destruct x. Qed.

Lemma ref_version_line_one_line :
  exists vl,
    @simpleVersionToVersionLine collaborators (Some (@VERSION collaborators))
    = Some vl /\ free_of LF vl = true /\ vl <> EmptyString.
Proof. eexists. split; [reflexivity|]. split; [reflexivity | done]. Qed.

End ReferenceContracts.

(** ** The further properties on the reference collaborators *)

Module Witnesses.
Import Reference ReferenceFacts ReferenceContracts.

(** X1: unlocking a store that was never locked. *)
Lemma lockDecrypt_failure_witness :
  let st := start [] (mem_of [work; home]) in
  let r := @lockDecrypt collaborators [0%nat; 1%nat] (Some "lock") st in
  NoDup [0%nat; 1%nat] /\ r.1 <> OIDC_SUCCESS /\
  exists done a f rest,
    lock_items [0%nat; 1%nat] = done ++ (a, f) :: rest /\
    @crypt_decrypt collaborators (get_field f (@memory collaborators st a))
      (Some "lock") = Err r.1.
Proof.
  cbv zeta.
  assert (Hnd : NoDup [0%nat; 1%nat])
    by (apply (bool_decide_unpack _); reflexivity).
  assert (Hfail : (@lockDecrypt collaborators [0%nat; 1%nat] (Some "lock")
                     (start [] (mem_of [work; home]))).1 <> OIDC_SUCCESS)
    by (vm_compute; discriminate).
  split; [exact Hnd|]. split; [exact Hfail|].
  destruct (@lockDecrypt_failure collaborators [0%nat; 1%nat] (Some "lock")
              (start [] (mem_of [work; home])) Hnd Hfail)
    as (dn & a & f & rest & Hsplit & Hcall & _).
  by exists dn, a, f, rest.
Defined.

(** X2: two accounts, locked and unlocked. *)
Lemma lock_unlock_roundtrip_witness :
  let st := start [] (mem_of [work; home]) in
  let l := @lockEncrypt collaborators [0%nat; 1%nat] (Some "lock") st in
  let u := @lockDecrypt collaborators [0%nat; 1%nat] (Some "lock") l.2 in
  NoDup [0%nat; 1%nat] /\ l.1 = OIDC_SUCCESS /\
  u.1 = OIDC_SUCCESS /\
  forall p, @memory collaborators u.2 p = @memory collaborators st p.
Proof.
  cbv zeta.
  assert (Hnd : NoDup [0%nat; 1%nat])
    by (apply (bool_decide_unpack _); reflexivity).
  split; [exact Hnd|]. split; [reflexivity|].
  exact (@lock_unlock_roundtrip collaborators ref_crypt_reports
           ref_crypt_lock_roundtrip [0%nat; 1%nat] (Some "lock")
           (start [] (mem_of [work; home])) Hnd eq_refl).
Defined.

(** X3: the wrong password on a locked store. *)
Lemma lockDecrypt_first_failure_witness :
  let st := (@lockEncrypt collaborators [0%nat; 1%nat] (Some "lock")
               (start [] (mem_of [work; home]))).2 in
  @crypt_decrypt collaborators (access_token (@memory collaborators st 0%nat))
    (Some "guess") = Err (OIDC_ELIB 1) /\
  @lockDecrypt collaborators [0%nat; 1%nat] (Some "guess") st
  = (OIDC_ELIB 1,
     @mk_state collaborators (OIDC_ELIB 1)
       (@calls collaborators st ++
        [@Call_crypt_decrypt collaborators
           (access_token (@memory collaborators st 0%nat)) (Some "guess")])
       (@outside collaborators st) (@memory collaborators st)).
Proof.
  cbv zeta.
  assert (Hrej : @crypt_decrypt collaborators
                   (access_token
                      (@memory collaborators
                         (@lockEncrypt collaborators [0%nat; 1%nat]
                            (Some "lock")
                            (start [] (mem_of [work; home]))).2 0%nat))
                   (Some "guess") = Err (OIDC_ELIB 1))
    by (vm_compute; reflexivity).
  split; [exact Hrej|].
  exact (@lockDecrypt_first_failure collaborators 0%nat [1%nat]
           (Some "guess")
           (@lockEncrypt collaborators [0%nat; 1%nat] (Some "lock")
              (start [] (mem_of [work; home]))).2
           (OIDC_ELIB 1) Hrej).
Defined.

(** X5: the eight calls of a lock of two accounts. *)
Lemma lock_calls_witness :
  let st := start [] (mem_of [work; home]) in
  let r := @lockEncrypt collaborators [0%nat; 1%nat] (Some "lock") st in
  NoDup [0%nat; 1%nat] /\ r.1 = OIDC_SUCCESS /\
  exists k, k = 8%nat /\
    @calls collaborators r.2
    = @calls collaborators st ++
      (@encrypt_call collaborators st (Some "lock")
         <$> take k (lock_items [0%nat; 1%nat])).
Proof.
  cbv zeta.
  assert (Hnd : NoDup [0%nat; 1%nat])
    by (apply (bool_decide_unpack _); reflexivity).
  split; [exact Hnd|]. split; [reflexivity|].
  destruct (proj1 (@lock_calls collaborators ref_crypt_reports
                     ref_crypt_decrypt_reports [0%nat; 1%nat] (Some "lock")
                     (start [] (mem_of [work; home])) Hnd))
    as (k & _ & Hlog & Hk).
  exists k. split; [exact (Hk eq_refl) | exact Hlog].
Defined.

(** X6: the store stays with one entry per identity. *)
Lemma store_invariant_witness :
  let st := start [] (mem_of [work; home; work_again]) in
  let r := @addAccountToList collaborators [0%nat; 1%nat] 2%nat st in
  @unique_by_identity collaborators st [0%nat; 1%nat] /\
  @unique_by_identity collaborators r.2 r.1.
Proof.
  cbv zeta.
  assert (Hu : @unique_by_identity collaborators
                 (start [] (mem_of [work; home; work_again]))
                 [0%nat; 1%nat])
    by (apply (bool_decide_unpack _); reflexivity).
  split; [exact Hu|].
  exact (proj1 (@store_invariant collaborators [0%nat; 1%nat] 2%nat 0%nat
                  (start [] (mem_of [work; home; work_again])) Hu)).
Defined.

(** X7: [work] is loaded again and looked up with the old record as key. *)
Lemma add_then_get_witness :
  let st := start [] (mem_of [work; home; work_again]) in
  let r := @addAccountToList collaborators [0%nat; 1%nat] 2%nat st in
  let g := @getAccountFromList collaborators r.1 0%nat r.2 in
  @unique_by_identity collaborators st [0%nat; 1%nat] /\
  g.1 = Some 2%nat /\
  forall p, @memory collaborators g.2 p = @memory collaborators st p.
Proof.
  cbv zeta.
  assert (Hu : @unique_by_identity collaborators
                 (start [] (mem_of [work; home; work_again]))
                 [0%nat; 1%nat])
    by (apply (bool_decide_unpack _); reflexivity).
  split; [exact Hu|].
  exact (@add_then_get collaborators ref_memory_roundtrip [0%nat; 1%nat]
           2%nat 0%nat (start [] (mem_of [work; home; work_again]))
           Hu eq_refl).
Defined.

(** X9: a key of an identity the store does not hold. *)
Lemma lookup_sound_witness :
  let st := start [] (mem_of [work; home; blank]) in
  let r := @getAccountFromList collaborators [0%nat; 1%nat] 2%nat st in
  r.1 = None /\ r.2 = st.
Proof.
  cbv zeta.
  assert (Hnone : (@getAccountFromList collaborators [0%nat; 1%nat] 2%nat
                     (start [] (mem_of [work; home; blank]))).1 = None)
    by reflexivity.
  split; [exact Hnone|].
  exact (proj1 (proj2 (@lookup_sound collaborators [0%nat; 1%nat] 2%nat
                         (start [] (mem_of [work; home; blank])))) Hnone).
Defined.

(** X10: [home] is added, taken out and put back. *)
Lemma get_then_add_again_witness :
  let st := start [] (mem_of [work; home]) in
  let r := @addAccountToList collaborators [0%nat] 1%nat st in
  let g := @getAccountFromList collaborators r.1 1%nat r.2 in
  let r' := @addAccountToList collaborators r.1 1%nat g.2 in
  @unique_by_identity collaborators st [0%nat] /\
  r'.1 = r.1 /\
  forall p, @memory collaborators r'.2 p = @memory collaborators r.2 p.
Proof.
  cbv zeta.
  assert (Hu : @unique_by_identity collaborators
                 (start [] (mem_of [work; home])) [0%nat])
    by (apply (bool_decide_unpack _); reflexivity).
  split; [exact Hu|].
  exact (@get_then_add_again collaborators ref_memory_roundtrip [0%nat]
           1%nat 1%nat (start [] (mem_of [work; home])) Hu eq_refl).
Defined.

(** X11: ["hello"] under ["pw1"]. *)
Lemma text_roundtrip_witness :
  let st := start [] (fun _ => blank) in
  exists blob,
    (@encryptText collaborators (Some "hello") (Some "pw1") st).1 = Some blob /\
    (@decryptText collaborators (Some blob) (Some "pw1")
       (Some (@VERSION collaborators)) st).1 = Some "hello".
Proof.
  cbv zeta. eexists. split; [reflexivity|].
  apply (@text_roundtrip collaborators eq_refl ref_crypt_text_roundtrip
           "hello" "pw1" (start [] (fun _ => blank))).
  reflexivity.
Defined.

(** X12: ["hello"] under ["pw1"], read with ["pw2"]. *)
Lemma current_file_content_witness :
  let st := start [] (fun _ => blank) in
  exists blob envelope,
    (@crypt_encrypt collaborators (Some "hello") (Some "pw1")
       (@outside collaborators st)).1 = Ok blob /\
    (@encryptWithVersionLine collaborators (Some "hello") (Some "pw1") st).1
    = Some envelope /\
    (@decryptFileContent collaborators (Some envelope) (Some "pw2") st).1
    = None /\
    @oidc_errno collaborators
      (@decryptFileContent collaborators (Some envelope) (Some "pw2") st).2
    = OIDC_ELIB 1.
Proof.
  cbv zeta.
  destruct (@current_file_content collaborators ref_split_lines
              ref_version_line_one_line eq_refl ref_crypt_blob_lines
              (Some "hello") (Some "pw1") (Some "pw2")
              (start [] (fun _ => blank)) (start [] (fun _ => blank))
              _ eq_refl)
    as (envelope & vl & Henv & Hvl & _ & Hrej).
  eexists _, envelope. split; [reflexivity|]. split; [exact Henv|].
  apply Hrej. injection Hvl as <-. reflexivity.
Defined.

(** X13: the legacy envelope of the scenarios. *)
Lemma legacy_file_content_witness :
  let st := start [] (fun _ => blank) in
  free_of LF "5:c2FsdA==:bm9uY2U=:Y2lwaGVy" = true /\
  fields "5:c2FsdA==:bm9uY2U=:Y2lwaGVy"
  = ["5"; "c2FsdA=="; "bm9uY2U="; "Y2lwaGVy"] /\
  @decryptFileContent collaborators (Some "5:c2FsdA==:bm9uY2U=:Y2lwaGVy")
    (Some "pw") st
  = @do_crypt_decrypt_hex collaborators (Some "Y2lwaGVy") 5 (Some "pw")
      (Some "bm9uY2U=") (Some "c2FsdA==") st.
Proof.
  cbv zeta. split; [reflexivity|]. split; [reflexivity|].
  apply (@legacy_file_content collaborators ref_split_lines
           ref_versionLine_NULL ref_versionAtLeast_NULL
           "5:c2FsdA==:bm9uY2U=:Y2lwaGVy" "5" "c2FsdA==" "bm9uY2U="
           "Y2lwaGVy" (Some "pw") (start [] (fun _ => blank)));
    [reflexivity | reflexivity | by vm_compute].
Defined.

(** X14: colons in front, an empty field and a fourth field. *)
Lemma leading_tokens_decide_witness :
  let st := start [] (fun _ => blank) in
  take 3 (fields "3:bm9uY2U:Y2lwaGVy")
  = take 3 (fields ":3::bm9uY2U:Y2lwaGVy:more") /\
  @decryptForIpc collaborators (Some "3:bm9uY2U:Y2lwaGVy") [] st
  = @decryptForIpc collaborators (Some ":3::bm9uY2U:Y2lwaGVy:more") [] st.
Proof.
  cbv zeta. split; [reflexivity|].
  apply (proj1 (@leading_tokens_decide collaborators "3:bm9uY2U:Y2lwaGVy"
                  ":3::bm9uY2U:Y2lwaGVy:more" [] None
                  (start [] (fun _ => blank)))).
  reflexivity.
Defined.

(** X15: no password. *)
Lemma missing_arguments_witness :
  let st := start [] (fun _ => blank) in
  (@decryptText collaborators (Some "5:c2FsdA==:bm9uY2U=:Y2lwaGVy") None
     (Some "4.1.0") st).1 = None /\
  @oidc_errno collaborators
    (@decryptText collaborators (Some "5:c2FsdA==:bm9uY2U=:Y2lwaGVy") None
       (Some "4.1.0") st).2 = OIDC_EARGNULLFUNC.
Proof.
  cbv zeta.
  rewrite (proj1 (@missing_arguments collaborators
                    (Some "5:c2FsdA==:bm9uY2U=:Y2lwaGVy") None (Some "4.1.0")
                    [] (start [] (fun _ => blank))) (or_intror eq_refl)).
  split; reflexivity.
Defined.

(** X16: no text to encrypt. *)
Lemma encryptWithVersionLine_never_NULL_witness :
  let st := start [] (fun _ => blank) in
  let r := @encryptWithVersionLine collaborators None (Some "pw1") st in
  (@crypt_encrypt collaborators None (Some "pw1")
     (@outside collaborators st)).1 = Err OIDC_EARGNULLFUNC /\
  r.1 = Some ("(null)" +:+ String LF "Generated using version 4.1.0") /\
  @oidc_errno collaborators r.2 = OIDC_EARGNULLFUNC.
Proof.
  cbv zeta. split; [reflexivity|].
  exact (proj2 (@encryptWithVersionLine_never_NULL collaborators None
                  (Some "pw1") (start [] (fun _ => blank)))
           OIDC_EARGNULLFUNC eq_refl).
Defined.

(** X17: the right password at the first prompt. *)
Lemma first_prompt_witness :
  let file := Some (armor "hello" +:+
                    String LF (armor "pw1" +:+
                    String LF "Generated using version 4.1.0")) in
  let st := start [Some "pw1"; Some "pw2"] (fun _ => blank) in
  let r := @decryptOidcFile collaborators (fun name => name) file None st in
  (0 < @MAX_PASS_TRIES collaborators)%nat /\
  r.1 = Some "hello" /\
  exists new, @calls_since collaborators st r.2 new /\
              @count collaborators is_prompt new = 1%nat /\
              @count collaborators is_perror new = 0%nat.
Proof.
  cbv zeta.
  assert (Hpos : (0 < @MAX_PASS_TRIES collaborators)%nat) by (simpl; lia).
  split; [exact Hpos|].
  destruct (proj2 (@first_prompt collaborators (fun name => name)
                     (Some (armor "hello" +:+
                            String LF (armor "pw1" +:+
                            String LF "Generated using version 4.1.0")))
                     (start [Some "pw1"; Some "pw2"] (fun _ => blank)))
              "hello" Hpos eq_refl)
    as (Hr & Hnew).
  split; [by rewrite Hr | exact Hnew].
Defined.

End Witnesses.
